(** * TfqSimulateMPS1DExpectation: the batched MPS expectation kernel

    A shallow embedding of
    [tensorflow_quantum/core/ops/math_ops/tfq_simulate_1d_expectation.cc]:
    the kernel's [Compute] method, its two back ends [ComputeLarge] and
    [ComputeSmall], and the shape function registered with the op.

    The kernel runs inside a TensorFlow [OpKernelContext] and mutates it:
    it prints to [std::cout], allocates the output tensor, writes cells of
    it and may set an error status.  These effects are threaded through a
    small state-and-error monad [M].  Code that lives outside the file
    (qsim's MPS simulator, TensorFlow's context and thread pool) is taken
    as a parameter; helpers of this repository that are declared elsewhere
    are modelled from the specification and marked as such. *)

From Stdlib Require Import ZArith String SpecFloat.
From stdpp Require Import base list gmap strings pretty.

(** ** Numbers *)

(** [float] in the source is IEEE-754 binary32, represented by the
    standard library's [spec_float] (sign, 24-bit mantissa, exponent). *)
Definition float32 : Type := spec_float.

(** The binary32 value of an integer literal (round to nearest even). *)
Definition f32 (z : Z) : float32 := binary_normalize 24 128 z 0 false.

(** [static_cast<int>] of a 64-bit dimension: two's complement wrap-around
    to 32 bits. *)
Definition to_int (z : Z) : Z := ((z + 2 ^ 31) mod 2 ^ 32 - 2 ^ 31)%Z.

(** ** Status values *)

(** [tensorflow::Status].  [InvalidArgument] is the one error this file
    raises itself; the other constructors are the error taxonomy of the
    helpers it calls. *)
Inductive Status : Type :=
| OK
| InvalidArgument (message : string)
| TopologyError (batch_index : nat)
| UnresolvedSymbolError (symbol : string)
| SimulationError (message : string).

Definition ok (s : Status) : bool :=
  match s with OK => true | _ => false end.

(** ** Programs, symbol maps and observables *)

(** The protocol-buffer types [Program] and [PauliSum] and the type
    [SymbolMap] are declared outside this file; their structure here is
    the data model of the specification.  Qubits are the indices that
    parsing has resolved, i.e. positions on the chain. *)
Inductive Unitary : Type :=
| FixedUnitary (matrix : list float32)
| SymbolicUnitary (symbol : string) (generator : float32 → list float32).

Record Operation : Type := mkOperation {
  op_qubits : list nat;
  op_unitary : Unitary;
}.

Definition Program : Type := list Operation.

Abbreviation SymbolMap := (gmap string float32).

Inductive Pauli : Type := PauliI | PauliX | PauliY | PauliZ.

Record PauliTerm : Type := mkPauliTerm {
  coefficient : float32;
  paulis : gmap nat Pauli;
}.

Definition PauliSum : Type := list PauliTerm.

(** [qsim::Cirq::GateCirq<float>] and [qsim::Circuit<QsimGate>], reduced to
    the fields the kernel reads. *)
Record QsimGate : Type := mkQsimGate {
  qubits : list nat;
  matrix : list float32;
}.

Record QsimCircuit : Type := mkQsimCircuit {
  num_qubits : Z;
  gates : list QsimGate;
}.

(** ** The simulator interface *)

(** [qsim::mps::MPSSimulator<qsim::For, float>] and its state space.  The
    C++ methods mutate the state they are given; here they return it. *)
Class Qsim : Type := {
  MPS : Type;
  Create : Z → Z → MPS;
  SetStateZero : MPS → MPS;
  ApplyGate : list nat → list float32 → MPS → MPS;
  NumQubits : MPS → Z;
}.

(** What the kernel relies on: [Create] allocates a chain of the requested
    length, and neither a reset nor a gate reallocates. *)
Class QsimLaws (Q : Qsim) : Prop := {
  NumQubits_Create : ∀ n b, NumQubits (Create n b) = n;
  NumQubits_SetStateZero : ∀ s, NumQubits (SetStateZero s) = NumQubits s;
  NumQubits_ApplyGate : ∀ qs m s, NumQubits (ApplyGate qs m s) = NumQubits s;
}.

(** [operator<<] of [std::ostream] on a [float]. *)
Class Ostream : Type := { show_float : float32 → string }.

(** ** The kernel context *)

(** The output tensor: a [rows × cols] matrix of [float]. *)
Record Matrix : Type := mkMatrix {
  rows : nat;
  cols : nat;
  cell : nat → nat → float32;
}.

Definition matrix_write (m : Matrix) (i j : nat) (v : float32) : Matrix :=
  {| rows := rows m; cols := cols m;
     cell := λ i' j', if bool_decide (i' = i ∧ j' = j) then v else cell m i' j' |}.

(** What a call of [Compute] is given.  The two parsing helpers
    [GetProgramsAndNumQubits] and [GetSymbolMaps] only read the context, so
    their results are recorded with it, as the status they return and the
    vectors they fill.  [output_memory] is the content of the buffer that
    [allocate_output] hands out (it is not initialised), and [workers] is
    the order in which the thread pool lets the iterations of a
    [ParallelFor] over [n] items take effect. *)
Record OpKernelContext : Type := mkContext {
  input_shapes : list (list Z);
  GetProgramsAndNumQubits :
    Status * (list Program * list Z * list (list PauliSum));
  GetSymbolMaps : Status * list SymbolMap;
  allocate_status : Status;
  output_memory : nat → nat → float32;
  workers : nat → list nat;
}.

Definition num_inputs (context : OpKernelContext) : Z :=
  Z.of_nat (length (input_shapes context)).

Definition with_workers (w : nat → list nat) (context : OpKernelContext)
  : OpKernelContext :=
  {| input_shapes := input_shapes context;
     GetProgramsAndNumQubits := GetProgramsAndNumQubits context;
     GetSymbolMaps := GetSymbolMaps context;
     allocate_status := allocate_status context;
     output_memory := output_memory context;
     workers := w |}.

(** A thread pool runs every iteration of the loop exactly once. *)
Definition fair_workers (context : OpKernelContext) : Prop :=
  ∀ n, workers context n ≡ₚ seq 0 n.

(** ** The effect monad *)

(** The part of the world [Compute] changes: what it has printed, and the
    output tensor once it is allocated. *)
Record World : Type := mkWorld {
  cout : list string;
  output : option Matrix;
}.

Definition initial_world : World := {| cout := []; output := None |}.

(** How a computation ends: normally, by an [OP_REQUIRES] that failed (the
    context's status is set and [Compute] returns), or in behaviour C++
    leaves undefined (an index out of range, a failed [CHECK]). *)
Inductive Result (A : Type) : Type :=
| Ok (a : A)
| Failed (s : Status)
| Undefined.
Arguments Ok {A} a.
Arguments Failed {A} s.
Arguments Undefined {A}.

Definition M (A : Type) : Type := World → World * Result A.

#[export] Instance M_ret : MRet M := λ A a w, (w, Ok a).

#[export] Instance M_bind : MBind M := λ A B f m w,
  match m w with
  | (w', Ok a) => f a w'
  | (w', Failed s) => (w', Failed s)
  | (w', Undefined) => (w', Undefined)
  end.

Definition fail {A} (s : Status) : M A := λ w, (w, Failed s).
Definition undefined {A} : M A := λ w, (w, Undefined).

Definition OP_REQUIRES (cond : bool) (s : Status) : M unit :=
  if cond then mret tt else fail s.

Definition OP_REQUIRES_OK (s : Status) : M unit :=
  OP_REQUIRES (ok s) s.

(** [std::cout << ... << std::endl]. *)
Definition print (line : string) : M unit :=
  λ w, ({| cout := cout w ++ [line]; output := output w |}, Ok tt).

(** The context takes the tensor as its output number 0. *)
Definition set_output (m : Matrix) : M unit :=
  λ w, ({| cout := cout w; output := Some m |}, Ok tt).

(** [v[i]] on a [std::vector]. *)
Definition at_index {A} (v : list A) (i : nat) : M A :=
  match v !! i with Some x => mret x | None => undefined end.

(** An assignment to cell [(i, j)] of the output tensor. *)
Definition output_write (i j : nat) (v : float32) : M unit :=
  λ w, match output w with
       | Some m =>
           if bool_decide (i < rows m ∧ j < cols m)%nat
           then ({| cout := cout w; output := Some (matrix_write m i j v) |}, Ok tt)
           else (w, Undefined)
       | None => (w, Undefined)
       end.

(** [for (j = 0; j < v.size(); j++)] over a vector [v], carrying the
    variables the body updates; the body is given [j] and [v[j]]. *)
Fixpoint for_indexed {A S} (j : nat) (v : list A) (body : nat → A → S → M S)
    (s : S) : M S :=
  match v with
  | [] => mret s
  | x :: v' => s' ← body j x s; for_indexed (Datatypes.S j) v' body s'
  end.

(** ** Helpers declared outside the file *)

(** Modelled from the spec: the macro [NESTED_FN_STATUS_SYNC], which is
    defined in another file of the repository.  Under the lock, the first
    failure written to the shared slot wins and later ones are discarded. *)
Definition NESTED_FN_STATUS_SYNC (global_status local_status : Status) : Status :=
  if ok local_status then global_status
  else if ok global_status then local_status
  else global_status.

(** Modelled from the spec: [CheckQubitsIn1D] of [program_resolution.h],
    missing from the sources at hand.  A two-qubit gate must act on
    neighbours of the chain; the first program that breaks this gives a
    [TopologyError]. *)
Definition adjacent (a b : nat) : bool :=
  bool_decide (a = Datatypes.S b ∨ b = Datatypes.S a).

Definition operation_in_1D (op : Operation) : bool :=
  match op_qubits op with
  | [a; b] => adjacent a b
  | _ => true
  end.

Definition program_in_1D (program : Program) : bool :=
  forallb operation_in_1D program.

Fixpoint CheckQubitsIn1D_from (i : nat) (programs : list Program) : Status :=
  match programs with
  | [] => OK
  | program :: rest =>
      if program_in_1D program then CheckQubitsIn1D_from (Datatypes.S i) rest
      else TopologyError i
  end.

Definition CheckQubitsIn1D (programs : list Program) : Status :=
  CheckQubitsIn1D_from 0 programs.

(** Modelled from the spec: [QsimCircuitFromProgram] of [util_qsim.h],
    missing from the sources at hand.  Every operation becomes one numeric
    gate, in order; a symbol that the map does not bind is an
    [UnresolvedSymbolError]. *)
Definition resolve_operation (map : SymbolMap) (op : Operation) : Status + QsimGate :=
  match op_unitary op with
  | FixedUnitary mat => inr {| qubits := op_qubits op; matrix := mat |}
  | SymbolicUnitary x generator =>
      match map !! x with
      | Some v => inr {| qubits := op_qubits op; matrix := generator v |}
      | None => inl (UnresolvedSymbolError x)
      end
  end.

Fixpoint resolve_program (map : SymbolMap) (program : Program)
  : Status * list QsimGate :=
  match program with
  | [] => (OK, [])
  | op :: rest =>
      match resolve_operation map op with
      | inr gate =>
          let '(status, resolved) := resolve_program map rest in
          (status, gate :: resolved)
      | inl error => (error, [])
      end
  end.

Definition QsimCircuitFromProgram (program : Program) (map : SymbolMap) (nq : Z)
  : Status * QsimCircuit :=
  let '(status, resolved) := resolve_program map program in
  (status, {| num_qubits := nq; gates := resolved |}).

(** ** The kernel *)

Section Kernel.
Context {Q : Qsim} {O : Ostream}.

(** The attribute [bond_dim] read by the constructor. *)
Variable bond_dim_ : Z.

(** The variables [ComputeLarge] carries from one circuit to the next. *)
Record Simulation : Type := mkSimulation {
  largest_nq : Z;
  sv : MPS;
  scratch : MPS;
}.

Definition show_qubits (qs : list nat) : string :=
  foldl (λ line q, line +:+ pretty q +:+ ", ") "ComputeLarge > ApplyGate > Qubits = " qs.

Definition show_matrix (m : list float32) : string :=
  foldl (λ line x, line +:+ show_float x +:+ ", ") "ComputeLarge > ApplyGate > Gate = " m.

(** The body of the loop over the gates of one circuit. *)
Definition apply_gate (j : nat) (gate : QsimGate) (state : MPS) : M MPS :=
  print ("ComputeLarge > ApplyGate " +:+ pretty j +:+ " qsize = "
           +:+ pretty (length (qubits gate)));;
  print (show_qubits (qubits gate));;
  print (show_matrix (matrix gate));;
  mret (ApplyGate (qubits gate) (matrix gate) state).

(** The body of the loop over the observables of circuit [i].  The call
    of [ComputeExpectationQsim] and the assignment of its result are
    commented out in the source: [exp_v] stays [0.0] and is only
    printed. *)
Definition write_expectation (i : nat) (qsim_gates : list QsimGate)
    (j : nat) (sum : PauliSum) (_ : unit) : M unit :=
  if bool_decide (length qsim_gates = 0%nat) then
    print ("ComputeLarge > result(" +:+ pretty i +:+ ", " +:+ pretty j
             +:+ ") = -2.0");;
    output_write i j (f32 (-2))
  else
    let exp_v := f32 0 in
    print ("ComputeLarge > result(" +:+ pretty i +:+ ", " +:+ pretty j
             +:+ ") = " +:+ show_float exp_v).

(** The switch to a larger state space, [if (nq > largest_nq) { ... }]. *)
Definition grow (nq : Z) (st : Simulation) : Simulation :=
  if bool_decide (nq > largest_nq st)%Z
  then {| largest_nq := nq;
          sv := Create nq bond_dim_;
          scratch := Create nq bond_dim_ |}
  else st.

(** The body of the loop over the circuits. *)
Definition simulate_circuit (num_qubits : list Z)
    (pauli_sums : list (list PauliSum))
    (i : nat) (circuit : QsimCircuit) (st : Simulation) : M Simulation :=
  print ("ComputeLarge > runs circuit" +:+ pretty i);;
  nq ← at_index num_qubits i;
  let st := grow nq st in
  let state := SetStateZero (sv st) in
  let qsim_gates := gates circuit in
  print ("ComputeLarge > QsimGate size = " +:+ pretty (length qsim_gates));;
  state ← for_indexed 0 qsim_gates apply_gate state;
  sums ← at_index pauli_sums i;
  for_indexed 0 sums (write_expectation i qsim_gates) tt;;
  mret {| largest_nq := largest_nq st; sv := state; scratch := scratch st |}.

Definition ComputeLarge_begin : Simulation :=
  let largest_nq := 1%Z in
  {| largest_nq := largest_nq;
     sv := Create largest_nq bond_dim_;
     scratch := Create largest_nq bond_dim_ |}.

(** The simulation loop, from circuit number [i] on. *)
Definition ComputeLarge_from (i : nat) (num_qubits : list Z)
    (qsim_circuits : list QsimCircuit) (pauli_sums : list (list PauliSum))
    (st : Simulation) : M Simulation :=
  for_indexed i qsim_circuits (simulate_circuit num_qubits pauli_sums) st.

Definition ComputeLarge (num_qubits : list Z)
    (qsim_circuits : list QsimCircuit) (pauli_sums : list (list PauliSum))
  : M unit :=
  ComputeLarge_from 0 num_qubits qsim_circuits pauli_sums ComputeLarge_begin;;
  mret tt.

(** Every statement of [ComputeSmall] is commented out. *)
Definition ComputeSmall (num_qubits : list Z) (max_num_qubits : Z)
    (qsim_circuits : list QsimCircuit) (pauli_sums : list (list PauliSum))
  : M unit :=
  mret tt.

(** *** The resolution phase *)

Record Construction : Type := mkConstruction {
  parse_status : Status;
  qsim_circuits : list QsimCircuit;
}.

(** One iteration of the loop in [construct_f].  The circuit goes to slot
    [i] of the vector, the status to the shared slot.  [None] is an index
    out of range.  The fused circuits, which the call fills as well, are
    left out: nothing reads them. *)
Definition construct_f (programs : list Program) (maps : list SymbolMap)
    (num_qubits : list Z) (i : nat) (c : Construction) : option Construction :=
  program ← programs !! i;
  map ← maps !! i;
  nq ← num_qubits !! i;
  _ ← qsim_circuits c !! i;
  let '(local, circuit) := QsimCircuitFromProgram program map nq in
  Some {| parse_status := NESTED_FN_STATUS_SYNC (parse_status c) local;
          qsim_circuits := <[i := circuit]> (qsim_circuits c) |}.

(** Before the loop: no error, and [size] default-constructed circuits. *)
Definition construct_begin (size : nat) : Construction :=
  {| parse_status := OK;
     qsim_circuits := replicate size {| num_qubits := 0; gates := [] |} |}.

(** [ParallelFor(total, cost, f)]: the pool runs the iterations in some
    order; each iteration writes its own slot, and the shared slot only
    under the lock, so a run is a sequence of iterations. *)
Definition run_iterations {S} (f : nat → S → option S) (order : list nat)
    (s : S) : option S :=
  foldl (λ acc i, acc ≫= f i) (Some s) order.

Definition ParallelFor {S} (context : OpKernelContext) (total : nat)
    (f : nat → S → option S) (s : S) : M S :=
  match run_iterations f (workers context total) s with
  | Some s' => mret s'
  | None => undefined
  end.

(** *** Compute *)

(** [context->input(input).dim_size(d)]. *)
Definition dim_size (context : OpKernelContext) (input d : nat) : M Z :=
  shape ← at_index (input_shapes context) input;
  at_index shape d.

(** [TensorShape::AddDim], which checks that the size is not negative. *)
Definition AddDim (shape : list Z) (size : Z) : M (list Z) :=
  if bool_decide (0 ≤ size)%Z then mret (shape ++ [size]) else undefined.

Definition allocate_output (context : OpKernelContext) (shape : list Z) : M unit :=
  match shape with
  | [d0; d1] =>
      OP_REQUIRES_OK (allocate_status context);;
      set_output {| rows := Z.to_nat d0; cols := Z.to_nat d1;
                    cell := output_memory context |}
  | _ => undefined
  end.

Definition Compute (context : OpKernelContext) : M unit :=
  let num_inputs := num_inputs context in
  OP_REQUIRES (bool_decide (num_inputs = 4%Z))
    (InvalidArgument ("Expected 4 inputs, got " +:+ pretty num_inputs
                        +:+ " inputs."));;
  d0 ← dim_size context 0 0;
  d1 ← dim_size context 3 1;
  let output_dim_batch_size := to_int d0 in
  let output_dim_op_size := to_int d1 in
  print ("batch_size = " +:+ pretty output_dim_batch_size);;
  print ("pauli sums size = " +:+ pretty output_dim_op_size);;
  output_shape ← AddDim [] output_dim_batch_size;
  output_shape ← AddDim output_shape output_dim_op_size;
  allocate_output context output_shape;;
  let '(status, (programs, num_qubits, pauli_sums)) :=
    GetProgramsAndNumQubits context in
  OP_REQUIRES_OK status;;
  print "parse program protos";;
  let '(status, maps) := GetSymbolMaps context in
  OP_REQUIRES_OK status;;
  OP_REQUIRES (bool_decide (length programs = length maps))
    (InvalidArgument
       ("Number of circuits and symbol_values do not match. Got "
          +:+ pretty (length programs) +:+ " circuits and "
          +:+ pretty (length maps) +:+ " symbol values."));;
  OP_REQUIRES_OK (CheckQubitsIn1D programs);;
  print "CheckQubitsIn1D";;
  c ← ParallelFor context (Z.to_nat output_dim_batch_size)
        (construct_f programs maps num_qubits)
        (construct_begin (length programs));
  OP_REQUIRES_OK (parse_status c);;
  print "QsimCircuitFromProgram";;
  let max_num_qubits := foldl Z.max 0%Z num_qubits in
  if true || bool_decide (max_num_qubits >= 26)%Z
     || bool_decide (length programs = 1%nat)
  then
    print "Enter ComputeLarge";;
    ComputeLarge num_qubits (qsim_circuits c) pauli_sums
  else
    print "THIS SHOULD NOT BE PRINTED OUT";;
    ComputeSmall num_qubits max_num_qubits (qsim_circuits c) pauli_sums.

End Kernel.

(** ** The shape function *)

(** TensorFlow's shape inference works on shapes whose rank or dimensions
    may be unknown. *)
Inductive DimensionHandle : Type := UnknownDim | KnownDim (size : Z).

Inductive ShapeHandle : Type :=
| UnknownShape
| KnownShape (dims : list DimensionHandle).

(** [InferenceContext::WithRank]: a shape of unknown rank is refined to
    the requested rank, a shape of another rank is refused. *)
Definition WithRank (shape : ShapeHandle) (rank : nat) : Status + ShapeHandle :=
  match shape with
  | UnknownShape => inr (KnownShape (replicate rank UnknownDim))
  | KnownShape dims =>
      if bool_decide (length dims = rank) then inr shape
      else inl (InvalidArgument ("Shape must be rank " +:+ pretty rank
                                   +:+ " but is rank " +:+ pretty (length dims)))
  end.

(** [InferenceContext::Dim]. *)
Definition Dim (shape : ShapeHandle) (idx : nat) : DimensionHandle :=
  match shape with
  | UnknownShape => UnknownDim
  | KnownShape dims => default UnknownDim (dims !! idx)
  end.

Definition TF_RETURN_IF_ERROR {A B} (r : Status + A) (k : A → Status + B)
  : Status + B :=
  match r with
  | inl error => inl error
  | inr a => k a
  end.

(** The lambda given to [SetShapeFn]; [input] is [c->input], and the
    result is the shape set for output 0. *)
Definition ShapeFn (input : nat → ShapeHandle) : Status + ShapeHandle :=
  TF_RETURN_IF_ERROR (WithRank (input 0%nat) 1) (λ programs_shape,
  TF_RETURN_IF_ERROR (WithRank (input 1%nat) 1) (λ symbol_names_shape,
  TF_RETURN_IF_ERROR (WithRank (input 2%nat) 2) (λ symbol_values_shape,
  TF_RETURN_IF_ERROR (WithRank (input 3%nat) 2) (λ pauli_sums_shape,
  let output_rows := Dim programs_shape 0 in
  let output_cols := Dim pauli_sums_shape 1 in
  inr (KnownShape [output_rows; output_cols]))))).

(** ** A reference instance *)

(** A simulator that records the length of the chain it was created with
    and the gates applied since the last reset.  It serves to run the
    kernel on concrete batches. *)
Module Recording.

Record state : Type := mkState {
  chain : Z;
  bond : Z;
  applied : list (list nat * list float32);
}.

#[export] Instance qsim : Qsim := {|
  MPS := state;
  Create n b := {| chain := n; bond := b; applied := [] |};
  SetStateZero s := {| chain := chain s; bond := bond s; applied := [] |};
  ApplyGate qs m s :=
    {| chain := chain s; bond := bond s; applied := applied s ++ [(qs, m)] |};
  NumQubits := chain;
|}.

(** Floats are printed as mantissa and binary exponent. *)
#[export] Instance ostream : Ostream := {|
  show_float x :=
    match x with
    | S754_zero _ => "0"
    | S754_infinity s => if s then "-inf" else "inf"
    | S754_nan => "nan"
    | S754_finite s m e =>
        (if s then "-" else "") +:+ pretty (Z.pos m) +:+ "p" +:+ pretty e
    end;
|}.

End Recording.

(** ** Sample batches *)

Module Samples.
Import Recording.

(** The Pauli X matrix, row-major, real and imaginary parts interleaved. *)
Definition X_matrix : list float32 :=
  [f32 0; f32 0; f32 1; f32 0; f32 1; f32 0; f32 0; f32 0].

Definition X_on_0 : Operation :=
  {| op_qubits := [0%nat]; op_unitary := FixedUnitary X_matrix |}.

Definition Z_on_0 : PauliSum :=
  [{| coefficient := f32 1; paulis := {[ 0%nat := PauliZ ]} |}].

Definition X_obs_on_0 : PauliSum :=
  [{| coefficient := f32 1; paulis := {[ 0%nat := PauliX ]} |}].

(** The input tensors of a batch of [n] programs with [m] observables
    each and no symbols. *)
Definition shapes (n m : Z) : list (list Z) := [[n]; [0%Z]; [n; 0%Z]; [n; m]].

(** An output buffer that held zeros before the call. *)
Definition zeros : nat → nat → float32 := λ _ _, f32 0.

(** One program per batch item, one observable each, every worker
    schedule in index order. *)
Definition batch (memory : nat → nat → float32)
    (items : list (Program * Z * PauliSum)) : OpKernelContext :=
  {| input_shapes := shapes (Z.of_nat (length items)) 1;
     GetProgramsAndNumQubits :=
       (OK, (items.*1.*1, items.*1.*2, (λ x, [x.2]) <$> items));
     GetSymbolMaps := (OK, (λ _, ∅) <$> items);
     allocate_status := OK;
     output_memory := memory;
     workers := seq 0 |}.

(** Program = [X gate on qubit 0], no symbols, observable Z on qubit 0. *)
Definition flip_context (memory : nat → nat → float32) : OpKernelContext :=
  batch memory [([X_on_0], 1%Z, Z_on_0)].

(** The empty program with observable Z on qubit 0. *)
Definition empty_context (memory : nat → nat → float32) : OpKernelContext :=
  batch memory [([], 1%Z, Z_on_0)].

(** The empty program with observable X on qubit 0. *)
Definition empty_X_context (memory : nat → nat → float32) : OpKernelContext :=
  batch memory [([], 1%Z, X_obs_on_0)].

(** A call that is given only three input tensors. *)
Definition three_inputs : OpKernelContext :=
  {| input_shapes := [[1%Z]; [0%Z]; [1%Z; 0%Z]];
     GetProgramsAndNumQubits := (OK, ([[X_on_0]], [1%Z], [[Z_on_0]]));
     GetSymbolMaps := (OK, [∅]);
     allocate_status := OK;
     output_memory := zeros;
     workers := seq 0 |}.

(** Two programs, but symbol values for one. *)
Definition mismatch_context : OpKernelContext :=
  {| input_shapes := shapes 2 1;
     GetProgramsAndNumQubits :=
       (OK, ([[X_on_0]; []], [1%Z; 1%Z], [[Z_on_0]; [Z_on_0]]));
     GetSymbolMaps := (OK, [∅]);
     allocate_status := OK;
     output_memory := zeros;
     workers := seq 0 |}.

(** Controlled-Z, here between qubits 0 and 2 of a chain of three. *)
Definition CZ_matrix : list float32 :=
  f32 <$> [1; 0; 0; 0; 0; 0; 0; 0;
           0; 0; 1; 0; 0; 0; 0; 0;
           0; 0; 0; 0; 1; 0; 0; 0;
           0; 0; 0; 0; 0; 0; -1; 0]%Z.

Definition CZ_on_0_2 : Operation :=
  {| op_qubits := [0%nat; 2%nat]; op_unitary := FixedUnitary CZ_matrix |}.

Definition far_gate_context : OpKernelContext :=
  batch zeros [([X_on_0], 1%Z, Z_on_0); ([X_on_0; CZ_on_0_2], 3%Z, Z_on_0)].

(** A one-qubit gate whose matrix depends on a symbol. *)
Definition scaled (symbol : string) : Operation :=
  {| op_qubits := [0%nat];
     op_unitary :=
       SymbolicUnitary symbol
         (λ v, [f32 1; f32 0; f32 0; f32 0; f32 0; f32 0; v; f32 0]) |}.

(** Two programs with symbols that no map binds; the workers run the
    iterations from the last to the first. *)
Definition backwards (n : nat) : list nat := reverse (seq 0 n).

Definition unresolved_context : OpKernelContext :=
  with_workers backwards
    (batch zeros [([scaled "alpha"], 1%Z, Z_on_0); ([scaled "beta"], 1%Z, Z_on_0)]).

(** A circuit with gates and one without. *)
Definition mixed_context : OpKernelContext :=
  batch zeros [([X_on_0], 1%Z, Z_on_0); ([], 1%Z, Z_on_0)].

(** Three circuits that need one, three and two qubits. *)
Definition three_sizes : list Z := [1; 3; 2]%Z.

Definition three_circuits : list QsimCircuit :=
  [{| num_qubits := 1; gates := [] |};
   {| num_qubits := 3; gates := [{| qubits := [0%nat]; matrix := X_matrix |}] |};
   {| num_qubits := 2; gates := [] |}].

Definition three_sums : list (list PauliSum) := [[Z_on_0]; [Z_on_0]; [Z_on_0]].

Definition three_rows : World :=
  {| cout := []; output := Some {| rows := 3; cols := 1; cell := zeros |} |}.

(** Known shapes for the four inputs of the op. *)
Definition sample_input (k : nat) : ShapeHandle :=
  default UnknownShape
    ([KnownShape [KnownDim 5]; KnownShape [KnownDim 2];
      KnownShape [KnownDim 5; KnownDim 2];
      KnownShape [KnownDim 5; KnownDim 7]] !! k).

(** A batch of no programs. *)
Definition no_programs : OpKernelContext := batch zeros [].

(** The batch of [mixed_context], with an allocation that fails. *)
Definition failing_allocation : OpKernelContext :=
  {| input_shapes := shapes 2 1;
     GetProgramsAndNumQubits := GetProgramsAndNumQubits mixed_context;
     GetSymbolMaps := GetSymbolMaps mixed_context;
     allocate_status := InvalidArgument "no memory for the output";
     output_memory := zeros;
     workers := seq 0 |}.

(** Programs that do not parse. *)
Definition unparsed_programs : OpKernelContext :=
  {| input_shapes := shapes 2 1;
     GetProgramsAndNumQubits := (InvalidArgument "Unparseable proto", ([], [], []));
     GetSymbolMaps := GetSymbolMaps mixed_context;
     allocate_status := OK;
     output_memory := zeros;
     workers := seq 0 |}.

(** Symbol values that do not parse. *)
Definition unparsed_symbols : OpKernelContext :=
  {| input_shapes := shapes 2 1;
     GetProgramsAndNumQubits := GetProgramsAndNumQubits mixed_context;
     GetSymbolMaps := (InvalidArgument "Input symbol names must be unique", []);
     allocate_status := OK;
     output_memory := zeros;
     workers := seq 0 |}.

(** An output buffer that held ones before the call. *)
Definition ones : nat → nat → float32 := λ _ _, f32 1.

(** The batch of [mixed_context], with the given buffer for the output. *)
Definition mixed_batch (memory : nat → nat → float32) : OpKernelContext :=
  batch memory [([X_on_0], 1%Z, Z_on_0); ([], 1%Z, Z_on_0)].

(** An empty batch whose observables input is declared [2^32 + 7] wide;
    the tensor has no rows, so it has no elements. *)
Definition wide_observables : OpKernelContext :=
  {| input_shapes := [[0]; [0]; [0; 0]; [0; 2 ^ 32 + 7]]%Z;
     GetProgramsAndNumQubits := (OK, ([], [], []));
     GetSymbolMaps := (OK, []);
     allocate_status := OK;
     output_memory := zeros;
     workers := seq 0 |}.

End Samples.

(** ** Vocabulary of the specification *)

(** Dimension [d] of input number [input], if there is one. *)
Definition input_dim (context : OpKernelContext) (input d : nat) : option Z :=
  shape ← input_shapes context !! input; shape !! d.

(** The output a caller may use: the tensor of a call that ended
    normally.  After a failed [OP_REQUIRES] the framework drops it. *)
Definition valid_output (run : World * Result unit) : option Matrix :=
  match run with
  | (w, Ok _) => output w
  | _ => None
  end.

(** The call gets as far as an allocated [n × m] output: four inputs, the
    two dimensions read from inputs 0 and 3, and an allocation that
    succeeds. *)
Record allocates (context : OpKernelContext) (n m : nat) : Prop := {
  allocates_inputs : num_inputs context = 4%Z;
  allocates_rows : to_int <$> input_dim context 0 0 = Some (Z.of_nat n);
  allocates_cols : to_int <$> input_dim context 3 1 = Some (Z.of_nat m);
  allocates_status : allocate_status context = OK;
}.

(** ... and both parsing helpers succeed, with these vectors. *)
Record parses (context : OpKernelContext) (programs : list Program)
    (nqs : list Z) (sums : list (list PauliSum)) (maps : list SymbolMap) : Prop := {
  parses_programs :
    GetProgramsAndNumQubits context = (OK, (programs, nqs, sums));
  parses_maps : GetSymbolMaps context = (OK, maps);
}.

(** ... and every check before the simulation passes: the batch sizes
    agree, the programs are 1D, and the resolution ends in [c] without an
    error. *)
Record validates (context : OpKernelContext) (n : nat)
    (programs : list Program) (nqs : list Z) (maps : list SymbolMap)
    (c : Construction) : Prop := {
  validates_batch : length programs = length maps;
  validates_1D : CheckQubitsIn1D programs = OK;
  validates_resolution :
    run_iterations (construct_f programs maps nqs) (workers context n)
      (construct_begin (length programs)) = Some c;
  validates_status : parse_status c = OK;
}.

(** What has been printed, and the output, once the [n × m] output is
    allocated; [lines] are printed after that. *)
Definition allocated (context : OpKernelContext) (n m : nat)
    (lines : list string) : World :=
  {| cout := ["batch_size = " +:+ pretty (Z.of_nat n);
              "pauli sums size = " +:+ pretty (Z.of_nat m)] ++ lines;
     output := Some {| rows := n; cols := m; cell := output_memory context |} |}.

(** The lines printed on the way to the simulation. *)
Definition validated_lines : list string :=
  ["parse program protos"; "CheckQubitsIn1D"; "QsimCircuitFromProgram";
   "Enter ComputeLarge"].

(** A dimension that [int] holds without wrapping. *)
Definition fits_int (z : Z) : Prop := (- 2 ^ 31 ≤ z < 2 ^ 31)%Z.

(** What [QsimCircuitFromProgram] gives for batch item [i]. *)
Definition resolve_item (programs : list Program) (maps : list SymbolMap)
    (nqs : list Z) (i : nat) : option (Status * QsimCircuit) :=
  program ← programs !! i;
  map ← maps !! i;
  nq ← nqs !! i;
  Some (QsimCircuitFromProgram program map nq).

(** The statuses the workers see, in the order in which they see them. *)
Definition observed_statuses (programs : list Program) (maps : list SymbolMap)
    (nqs : list Z) (order : list nat) : list Status :=
  omap (λ i, fst <$> resolve_item programs maps nqs i) order.

(** Iteration [i] of the resolution loop touches only elements that exist,
    in vectors of the given [size]. *)
Definition in_range (programs : list Program) (maps : list SymbolMap)
    (nqs : list Z) (size i : nat) : Prop :=
  is_Some (resolve_item programs maps nqs i) ∧ i < size.

(** The first failure in a sequence of statuses, [OK] if there is none. *)
Definition first_error (observed : list Status) : Status :=
  default OK (head (filter (λ s, ok s = false) observed)).

(** The gates of a circuit applied in order. *)
Definition apply_gates `{Qsim} (gs : list QsimGate) (state : MPS) : MPS :=
  foldl (λ s g, ApplyGate (qubits g) (matrix g) s) state gs.

(** The variables of [ComputeLarge] after circuit [i], whose qubit count
    is [nq], given what they were before it. *)
Definition after_circuit `{Qsim} (bond_dim_ : Z) (nq : Z) (circuit : QsimCircuit)
    (st : Simulation) : Simulation :=
  let st1 := grow bond_dim_ nq st in
  {| largest_nq := largest_nq st1;
     sv := apply_gates (gates circuit) (SetStateZero (sv st1));
     scratch := scratch st1 |}.

(** Both states of the simulation are chains of [largest_nq] qubits. *)
Definition sized `{Qsim} (st : Simulation) : Prop :=
  NumQubits (sv st) = largest_nq st ∧ NumQubits (scratch st) = largest_nq st.

(** The shape of the output, once there is one. *)
Definition dims (w : World) : option (nat * nat) :=
  (λ m, (rows m, cols m)) <$> output w.

(** Cell [(i, j)] belongs to a circuit without gates, one of [circuits]
    (numbered from [i0]), and to one of its observables. *)
Definition sentinel_cell (i0 : nat) (circuits : list QsimCircuit)
    (sums : list (list PauliSum)) (i j : nat) : Prop :=
  ∃ circuit obs,
    i0 ≤ i ∧ circuits !! (i - i0) = Some circuit ∧ gates circuit = []
    ∧ sums !! i = Some obs ∧ j < length obs.

(** Lines printed by [ComputeLarge]. *)
Definition from_ComputeLarge (line : string) : Prop :=
  ∃ rest, line = "ComputeLarge > " +:+ rest.

(** [m] only adds lines to the standard output, all of them in [P]. *)
Definition appends {A} (P : string → Prop) (m : M A) : Prop :=
  ∀ w, ∃ lines, cout (m w).1 = cout w ++ lines ∧ Forall P lines.

(** Cell [(i, j)] of the output, once there is one. *)
Definition read (w : World) (i j : nat) : option float32 :=
  m ← output w; Some (cell m i j).

(** ** Vocabulary of the further properties *)

(** [m] never ends in a failed [OP_REQUIRES]. *)
Definition never_fails {A} (m : M A) : Prop :=
  ∀ w w' s, m w ≠ (w', Failed s).

(** When [m] fails, the status it fails with is not [OK]. *)
Definition fails_with_error {A} (m : M A) : Prop :=
  ∀ w w' s, m w = (w', Failed s) → ok s = false.

(** When [m] fails, it has not announced the simulation. *)
Definition rejects_early {A} (m : M A) : Prop :=
  ∀ w w' s,
    ("Enter ComputeLarge" ∉ cout w) → m w = (w', Failed s) →
    ("Enter ComputeLarge" ∉ cout w') ∧ ok s = false.

(** How a computation ends, without the value it may return. *)
Definition outcome {A} (r : Result A) : Result unit :=
  match r with
  | Ok _ => Ok tt
  | Failed s => Failed s
  | Undefined => Undefined
  end.

(** A shape that [WithRank] accepts for [rank]. *)
Definition has_rank (shape : ShapeHandle) (rank : nat) : Prop :=
  match shape with
  | UnknownShape => True
  | KnownShape dims => length dims = rank
  end.

(** The output as the allocation leaves it, before anything is printed
    after the two sizes. *)
Definition unallocated (n m : nat) : World :=
  {| cout := ["batch_size = " +:+ pretty (Z.of_nat n);
              "pauli sums size = " +:+ pretty (Z.of_nat m)];
     output := None |}.

(** Two computations agree on what they do to the output and on how they
    end, when they start from the same output. *)
Definition agree {A B} (m1 : M A) (m2 : M B) : Prop :=
  ∀ w1 w2,
    output w1 = output w2 →
    output (m1 w1).1 = output (m2 w2).1
    ∧ outcome (m1 w1).2 = outcome (m2 w2).2.

(** The shapes of the inputs of a call, as shape inference sees them when
    they are all known. *)
Definition known_shapes (context : OpKernelContext) (k : nat) : ShapeHandle :=
  match input_shapes context !! k with
  | Some shape => KnownShape (KnownDim <$> shape)
  | None => UnknownShape
  end.

(** * Properties *)

#[export] Instance Recording_laws : QsimLaws Recording.qsim.
Proof. by split. Qed.

(** ** Running monadic code *)

Lemma bind_Ok {A B} (m : M A) (f : A → M B) w w1 a :
  m w = (w1, Ok a) → (m ≫= f) w = f a w1.
Proof. intros E. unfold mbind, M_bind. by rewrite E. Qed.

Lemma bind_Failed {A B} (m : M A) (f : A → M B) w w1 s :
  m w = (w1, Failed s) → (m ≫= f) w = (w1, Failed s).
Proof. intros E. unfold mbind, M_bind. by rewrite E. Qed.

Lemma bind_Undefined {A B} (m : M A) (f : A → M B) w w1 :
  m w = (w1, Undefined) → (m ≫= f) w = (w1, Undefined).
Proof. intros E. unfold mbind, M_bind. by rewrite E. Qed.

Lemma bind_Ok_inv {A B} (m : M A) (f : A → M B) w w' b :
  (m ≫= f) w = (w', Ok b) → ∃ w1 a, m w = (w1, Ok a) ∧ f a w1 = (w', Ok b).
Proof.
  unfold mbind, M_bind. destruct (m w) as [w1 [a| |]]; [|done..].
  intros E. by exists w1, a.
Qed.

Lemma at_index_Some {A} (v : list A) i x w :
  v !! i = Some x → at_index v i w = (w, Ok x).
Proof. intros E. unfold at_index. by rewrite E. Qed.

Lemma at_index_Ok_inv {A} (v : list A) i x w w' :
  at_index v i w = (w', Ok x) → w' = w ∧ v !! i = Some x.
Proof.
  unfold at_index. destruct (v !! i); [|done].
  by intros [= -> ->].
Qed.

Lemma dim_size_Some context input d z w :
  input_dim context input d = Some z → dim_size context input d w = (w, Ok z).
Proof.
  unfold input_dim, dim_size. intros E.
  destruct (input_shapes context !! input) as [shape|] eqn:Es; [|done].
  rewrite (bind_Ok _ _ w w shape) by by apply at_index_Some.
  by apply at_index_Some.
Qed.

Lemma dim_size_Ok_inv context input d z w w' :
  dim_size context input d w = (w', Ok z) →
  w' = w ∧ input_dim context input d = Some z.
Proof.
  unfold dim_size, input_dim. intros E.
  apply bind_Ok_inv in E as (w1 & shape & E1 & E2).
  apply at_index_Ok_inv in E1 as [-> E1]. apply at_index_Ok_inv in E2 as [-> E2].
  by rewrite E1.
Qed.

(** ** The resolution phase *)

Lemma first_error_cons s observed :
  first_error (s :: observed) = if ok s then first_error observed else s.
Proof.
  unfold first_error. rewrite filter_cons.
  destruct (decide (ok s = false)) as [E|E]; destruct (ok s); done.
Qed.

Lemma sync_first_error observed s :
  foldl NESTED_FN_STATUS_SYNC s observed
  = if ok s then first_error observed else s.
Proof.
  revert s. induction observed as [|local observed IH]; intros s; simpl.
  - by destruct s.
  - rewrite IH, first_error_cons. unfold NESTED_FN_STATUS_SYNC.
    by destruct (ok local) eqn:El, (ok s) eqn:Es; rewrite ?El, ?Es.
Qed.

Lemma first_error_ok observed :
  ok (first_error observed) = true ↔ Forall (λ s, ok s = true) observed.
Proof.
  induction observed as [|s observed IH]; [done|].
  rewrite first_error_cons, Forall_cons.
  destruct (ok s) eqn:Es; [tauto|]. rewrite Es. split; [done | by intros [? _]].
Qed.

Lemma first_error_failed observed :
  Exists (λ s, ok s = false) observed → ok (first_error observed) = false.
Proof.
  intros H. destruct (ok (first_error observed)) eqn:E; [|done].
  apply first_error_ok in E. apply Exists_exists in H as (s & Hs & Hf).
  rewrite Forall_forall in E. specialize (E s Hs). congruence.
Qed.

Lemma run_iterations_cons {S} (f : nat → S → option S) i order s :
  run_iterations f (i :: order) s
  = match f i s with Some s' => run_iterations f order s' | None => None end.
Proof.
  unfold run_iterations. simpl. destruct (f i s); [done|].
  by induction order.
Qed.

Section Resolution.
Variables (programs : list Program) (maps : list SymbolMap) (nqs : list Z).

#[local] Abbreviation observed_statuses := (observed_statuses programs maps nqs).
#[local] Abbreviation in_range := (in_range programs maps nqs).

Lemma construct_f_Some i c local circuit :
  resolve_item programs maps nqs i = Some (local, circuit) →
  i < length (qsim_circuits c) →
  construct_f programs maps nqs i c
  = Some {| parse_status := NESTED_FN_STATUS_SYNC (parse_status c) local;
            qsim_circuits := <[i := circuit]> (qsim_circuits c) |}.
Proof.
  unfold resolve_item, construct_f. intros Hr Hi.
  destruct (programs !! i) as [p|]; [|done]. simpl in *.
  destruct (maps !! i) as [m|]; [|done]. simpl in *.
  destruct (nqs !! i) as [nq|]; [|done]. simpl in *.
  apply lookup_lt_is_Some_2 in Hi as [x ->]. simpl.
  injection Hr as ->. done.
Qed.

Lemma construct_f_is_Some i c :
  is_Some (construct_f programs maps nqs i c)
  → in_range (length (qsim_circuits c)) i.
Proof.
  unfold resolve_item, construct_f, in_range, resolve_item. intros [c' Hc].
  destruct (programs !! i) as [p|]; [|done]. simpl in *.
  destruct (maps !! i) as [m|]; [|done]. simpl in *.
  destruct (nqs !! i) as [nq|]; [|done]. simpl in *.
  destruct (qsim_circuits c !! i) eqn:E; [|done].
  split; [done|]. by eapply lookup_lt_Some.
Qed.

(** A run of the loop over [order] is defined when every iteration is in
    range.  It then leaves the first failure in the shared slot, and in
    slot [j] the circuit of item [j] if [j] was visited. *)
Lemma run_iterations_Some order c :
  Forall (in_range (length (qsim_circuits c))) order →
  ∃ c', run_iterations (construct_f programs maps nqs) order c = Some c'
    ∧ parse_status c'
      = foldl NESTED_FN_STATUS_SYNC (parse_status c) (observed_statuses order)
    ∧ length (qsim_circuits c') = length (qsim_circuits c)
    ∧ ∀ j, qsim_circuits c' !! j
           = if decide (j ∈ order ∧ j < length (qsim_circuits c))
             then snd <$> resolve_item programs maps nqs j
             else qsim_circuits c !! j.
Proof.
  revert c. induction order as [|i order IH]; intros c Hall.
  - exists c. split_and!; [done..|]. intros j.
    case_decide as Hj; [|done]. destruct Hj as [Hj _]. by apply elem_of_nil in Hj.
  - apply Forall_cons in Hall as [[[[local circuit] Hr] Hi] Hall].
    rewrite run_iterations_cons, (construct_f_Some _ _ _ _ Hr Hi).
    destruct (IH {| parse_status := NESTED_FN_STATUS_SYNC (parse_status c) local;
                    qsim_circuits := <[i := circuit]> (qsim_circuits c) |})
      as (c' & Hrun & Hst & Hlen & Hlook).
    { simpl. by rewrite length_insert. }
    simpl in *. rewrite length_insert in Hlen, Hlook.
    exists c'. split_and!; [done| |done|].
    + rewrite Hst. unfold observed_statuses. simpl. by rewrite Hr.
    + intros j. rewrite Hlook.
      destruct (decide (j = i)) as [->|Hne].
      * rewrite (decide_True (P := i ∈ i :: order ∧ _)) by (split; [left|done]).
        case_decide; [done|].
        rewrite list_lookup_insert_eq by done. by rewrite Hr.
      * rewrite list_lookup_insert_ne by done.
        apply decide_ext. rewrite elem_of_cons. intuition congruence.
Qed.

Lemma run_iterations_is_Some order c :
  is_Some (run_iterations (construct_f programs maps nqs) order c) →
  Forall (in_range (length (qsim_circuits c))) order.
Proof.
  revert c. induction order as [|i order IH]; intros c Hsome; [done|].
  rewrite run_iterations_cons in Hsome.
  destruct (construct_f programs maps nqs i c) as [c1|] eqn:E;
    [|by destruct Hsome].
  pose proof (construct_f_is_Some i c (mk_is_Some _ _ E)) as Hi.
  apply Forall_cons. split; [done|].
  destruct Hi as [[[local circuit] Hr] Hi].
  rewrite (construct_f_Some _ _ _ _ Hr Hi) in E. injection E as <-.
  apply IH in Hsome. simpl in Hsome. by rewrite length_insert in Hsome.
Qed.

(** Two orders over the same items end in the same circuits, and agree
    on whether there was a failure. *)
Lemma run_iterations_order order1 order2 c c1 :
  order1 ≡ₚ order2 →
  run_iterations (construct_f programs maps nqs) order1 c = Some c1 →
  ∃ c2, run_iterations (construct_f programs maps nqs) order2 c = Some c2
    ∧ qsim_circuits c2 = qsim_circuits c1
    ∧ ok (parse_status c2) = ok (parse_status c1).
Proof.
  intros Hperm Hrun1.
  pose proof (run_iterations_is_Some order1 c (mk_is_Some _ _ Hrun1)) as Hall1.
  assert (Hall2 : Forall (in_range (length (qsim_circuits c))) order2)
    by by rewrite <- Hperm.
  destruct (run_iterations_Some order1 c Hall1) as (c1' & Hr1 & Hs1 & Hl1 & Hk1).
  rewrite Hrun1 in Hr1. injection Hr1 as <-.
  destruct (run_iterations_Some order2 c Hall2) as (c2 & Hr2 & Hs2 & Hl2 & Hk2).
  exists c2. split_and!; [done| |].
  - apply list_eq. intros j. rewrite Hk1, Hk2.
    apply decide_ext. by rewrite Hperm.
  - rewrite Hs1, Hs2, !sync_first_error.
    destruct (ok (parse_status c)); [|done].
    apply eq_true_iff_eq. rewrite !first_error_ok.
    unfold observed_statuses. by rewrite Hperm.
Qed.

End Resolution.

(** ** What is printed *)

Lemma appends_ret {A} P (a : A) : appends P (mret a).
Proof. intros w. exists []. by rewrite app_nil_r. Qed.

Lemma appends_silent {A} P (m : M A) :
  (∀ w, cout (m w).1 = cout w) → appends P m.
Proof. intros H w. exists []. by rewrite app_nil_r. Qed.

Lemma appends_bind {A B} P (m : M A) (f : A → M B) :
  appends P m → (∀ a, appends P (f a)) → appends P (m ≫= f).
Proof.
  intros Hm Hf w. destruct (Hm w) as (l1 & E1 & F1).
  unfold mbind, M_bind. destruct (m w) as [w1 [a| |]]; simpl in *;
    [|by exists l1..].
  destruct (Hf a w1) as (l2 & E2 & F2). exists (l1 ++ l2).
  rewrite E2, E1, app_assoc. split; [done|]. by apply Forall_app.
Qed.

Lemma appends_print (P : string → Prop) line : P line → appends P (print line).
Proof. intros H w. exists [line]. split; [done|]. by apply Forall_singleton. Qed.

Lemma appends_weaken {A} (P P' : string → Prop) (m : M A) :
  (∀ line, P line → P' line) → appends P m → appends P' m.
Proof.
  intros HP Hm w. destruct (Hm w) as (lines & E & F).
  exists lines. split; [done|]. by eapply Forall_impl.
Qed.

Lemma appends_OP_REQUIRES P cond s : appends P (OP_REQUIRES cond s).
Proof. apply appends_silent. intros w. by destruct cond. Qed.

Lemma appends_at_index {A} P (v : list A) i : appends P (at_index v i).
Proof. apply appends_silent. intros w. unfold at_index. by destruct (v !! i). Qed.

Lemma appends_output_write P i j v : appends P (output_write i j v).
Proof.
  apply appends_silent. intros w. unfold output_write.
  destruct (output w); [|done]. by case_bool_decide.
Qed.

Lemma appends_for_indexed {A S} P (v : list A) (body : nat → A → S → M S) :
  (∀ j x s, appends P (body j x s)) → ∀ j s, appends P (for_indexed j v body s).
Proof.
  intros Hbody. induction v as [|x v IH]; intros j s; simpl.
  - apply appends_ret.
  - apply appends_bind; [apply Hbody|]. intros s'. apply IH.
Qed.

Lemma foldl_append_cons {A} (g : A → string) c init xs :
  foldl (λ line x, line +:+ g x) (String c init) xs
  = String c (foldl (λ line x, line +:+ g x) init xs).
Proof. revert init. induction xs as [|x xs IH]; intros init; [done|]. apply IH. Qed.

Lemma foldl_append_prefix {A} (g : A → string) prefix init xs :
  foldl (λ line x, line +:+ g x) (prefix +:+ init) xs
  = prefix +:+ foldl (λ line x, line +:+ g x) init xs.
Proof.
  induction prefix as [|c prefix IH]; [done|].
  etrans; [apply (foldl_append_cons g c)|]. exact (f_equal (String c) IH).
Qed.

Section ComputeLarge.
Context {Q : Qsim} {O : Ostream}.
Variable bond_dim_ : Z.

Lemma appends_apply_gate j gate state :
  appends from_ComputeLarge (apply_gate j gate state).
Proof.
  unfold apply_gate.
  repeat (apply appends_bind; [apply appends_print|intros _]);
    [| | |apply appends_ret].
  - by eexists.
  - eexists. unfold show_qubits.
    apply (foldl_append_prefix (λ q, pretty q +:+ ", ")
             "ComputeLarge > " "ApplyGate > Qubits = ").
  - eexists. unfold show_matrix.
    apply (foldl_append_prefix (λ x, show_float x +:+ ", ")
             "ComputeLarge > " "ApplyGate > Gate = ").
Qed.

Lemma appends_write_expectation i gs j sum u :
  appends from_ComputeLarge (write_expectation i gs j sum u).
Proof.
  unfold write_expectation. case_bool_decide.
  - apply appends_bind; [apply appends_print; by eexists|intros _].
    apply appends_output_write.
  - apply appends_print. by eexists.
Qed.

Lemma appends_simulate_circuit nqs sums i circuit st :
  appends from_ComputeLarge (simulate_circuit bond_dim_ nqs sums i circuit st).
Proof.
  unfold simulate_circuit.
  apply appends_bind; [apply appends_print; by eexists|intros _].
  apply appends_bind; [apply appends_at_index|intros nq].
  apply appends_bind; [apply appends_print; by eexists|intros _].
  apply appends_bind; [apply appends_for_indexed, appends_apply_gate|intros state].
  apply appends_bind; [apply appends_at_index|intros obs].
  apply appends_bind; [apply appends_for_indexed, appends_write_expectation|intros _].
  apply appends_ret.
Qed.

Lemma appends_ComputeLarge nqs circuits sums :
  appends from_ComputeLarge (ComputeLarge bond_dim_ nqs circuits sums).
Proof.
  unfold ComputeLarge, ComputeLarge_from.
  apply appends_bind; [|intros _; apply appends_ret].
  apply appends_for_indexed, appends_simulate_circuit.
Qed.

(** ** The loops of ComputeLarge *)

Lemma apply_gates_NumQubits `{!QsimLaws Q} gs state :
  NumQubits (apply_gates gs state) = NumQubits state.
Proof.
  unfold apply_gates. revert state.
  induction gs as [|g gs IH]; intros state; [done|].
  simpl. by rewrite IH, NumQubits_ApplyGate.
Qed.

(** The loop over the gates always ends, leaves the output alone and
    applies the gates in order. *)
Lemma run_gates j gs state w :
  ∃ w', for_indexed j gs apply_gate state w = (w', Ok (apply_gates gs state))
        ∧ output w' = output w.
Proof.
  revert j state w. induction gs as [|g gs IH]; intros j state w.
  - by exists w.
  - simpl. erewrite bind_Ok by reflexivity.
    edestruct IH as (w' & E & Ho). exists w'. split; [exact E|exact Ho].
Qed.

(** For a circuit with gates, the loop over the observables writes
    nothing. *)
Lemma run_observables_unwritten i gs j obs w :
  gs ≠ [] →
  ∃ w', for_indexed j obs (write_expectation i gs) tt w = (w', Ok tt)
        ∧ output w' = output w.
Proof.
  intros Hgs. revert j w. induction obs as [|sum obs IH]; intros j w.
  - by exists w.
  - simpl.
    assert (∃ w1, write_expectation i gs j sum tt w = (w1, Ok tt)
                  ∧ output w1 = output w) as (w1 & E1 & Ho1).
    { unfold write_expectation.
      rewrite bool_decide_eq_false_2 by by destruct gs. by eexists. }
    erewrite bind_Ok by exact E1.
    destruct (IH (S j) w1) as (w' & E & Ho). exists w'. split; [done|congruence].
Qed.

Lemma output_write_Ok_inv i j v w w' :
  output_write i j v w = (w', Ok tt) →
  dims w' = dims w
  ∧ ∀ i' j', read w' i' j'
             = if decide (i' = i ∧ j' = j) then Some v else read w i' j'.
Proof.
  unfold output_write, dims, read. destruct (output w) as [m|]; [|done].
  case_bool_decide; [|done]. intros [= <-]. simpl. split; [done|].
  intros i' j'. case_bool_decide; by case_decide.
Qed.

(** For a circuit without gates, it writes the sentinel for every
    observable. *)
Lemma run_observables_sentinel i j obs w w' :
  for_indexed j obs (write_expectation i []) tt w = (w', Ok tt) →
  dims w' = dims w
  ∧ ∀ i' j', read w' i' j'
             = if decide (i' = i ∧ j ≤ j' < j + length obs)
               then Some (f32 (-2)) else read w i' j'.
Proof.
  revert j w. induction obs as [|sum obs IH]; intros j w.
  - intros [= <-]. split; [done|]. intros i' j'.
    rewrite decide_False; [done|]. simpl. lia.
  - simpl. intros E. apply bind_Ok_inv in E as (w1 & [] & E1 & E2).
    unfold write_expectation in E1. rewrite bool_decide_eq_true_2 in E1 by done.
    erewrite bind_Ok in E1 by reflexivity.
    apply output_write_Ok_inv in E1 as [Hd1 Hr1].
    apply IH in E2 as [Hd2 Hr2].
    split; [by rewrite Hd2, Hd1|].
    intros i' j'. rewrite Hr2, Hr1. simpl.
    repeat case_decide; try done; lia.
Qed.

(** One circuit: the variables afterwards, and the cells written. *)
Lemma simulate_circuit_Ok_inv nqs sums i circuit st w w' st' :
  simulate_circuit bond_dim_ nqs sums i circuit st w = (w', Ok st') →
  ∃ nq obs,
    nqs !! i = Some nq ∧ sums !! i = Some obs
    ∧ st' = after_circuit bond_dim_ nq circuit st
    ∧ dims w' = dims w
    ∧ ∀ i' j', read w' i' j'
               = if decide (gates circuit = [] ∧ i' = i ∧ j' < length obs)
                 then Some (f32 (-2)) else read w i' j'.
Proof.
  unfold simulate_circuit. intros E.
  erewrite bind_Ok in E by reflexivity.
  apply bind_Ok_inv in E as (w1 & nq & E1 & E).
  apply at_index_Ok_inv in E1 as [-> Hnq].
  erewrite bind_Ok in E by reflexivity.
  match type of E with
  | (for_indexed 0 ?gs apply_gate ?state ≫= _) ?w = _ =>
      destruct (run_gates 0 gs state w) as (w2 & Eg & Ho2)
  end.
  erewrite bind_Ok in E by exact Eg.
  apply bind_Ok_inv in E as (w3 & obs & E3 & E).
  apply at_index_Ok_inv in E3 as [-> Hobs].
  apply bind_Ok_inv in E as (w4 & [] & E4 & E).
  injection E as <- <-.
  exists nq, obs. split_and!; [done..| |].
  - destruct (decide (gates circuit = [])) as [Hg|Hg].
    + rewrite Hg in E4. apply run_observables_sentinel in E4 as [-> _].
      unfold dims. by rewrite Ho2.
    + destruct (run_observables_unwritten i _ 0 obs w2 Hg) as (w5 & E5 & Ho5).
      rewrite E5 in E4. injection E4 as <-. unfold dims. by rewrite Ho5, Ho2.
  - intros i' j'. destruct (decide (gates circuit = [])) as [Hg|Hg].
    + rewrite Hg in E4. apply run_observables_sentinel in E4 as [_ ->].
      unfold read. rewrite Ho2. simpl.
      apply decide_ext. intuition lia.
    + destruct (run_observables_unwritten i _ 0 obs w2 Hg) as (w5 & E5 & Ho5).
      rewrite E5 in E4. injection E4 as <-.
      rewrite decide_False by tauto. unfold read. by rewrite Ho5, Ho2.
Qed.

(** The whole loop: the shape of the output stays, the cells of circuits
    without gates hold the sentinel, all other cells are untouched. *)
Lemma ComputeLarge_from_cells i0 nqs circuits sums st w w' st' :
  ComputeLarge_from bond_dim_ i0 nqs circuits sums st w = (w', Ok st') →
  dims w' = dims w
  ∧ ∀ i j,
      (sentinel_cell i0 circuits sums i j → read w' i j = Some (f32 (-2)))
      ∧ (¬ sentinel_cell i0 circuits sums i j → read w' i j = read w i j).
Proof.
  unfold ComputeLarge_from. revert i0 st w.
  induction circuits as [|circuit circuits IH]; intros i0 st w.
  - intros [= <- <-]. split; [done|]. intros i j. split; [|done].
    by intros (c & obs & _ & Hc & _).
  - simpl. intros E. apply bind_Ok_inv in E as (w1 & st1 & E1 & E).
    apply simulate_circuit_Ok_inv in E1 as (nq & obs & Hnq & Hobs & _ & Hd1 & Hr1).
    apply IH in E as [Hd Hr]. split; [congruence|].
    intros i j. destruct (Hr i j) as [Hyes Hno]. split.
    + intros (c & obs' & Hle & Hc & Hg & Hobs' & Hj).
      destruct (decide (i = i0)) as [->|Hne].
      * rewrite Nat.sub_diag in Hc. injection Hc as <-.
        rewrite Hno, Hr1.
        -- rewrite decide_True; [done|]. split_and!; [done..|]. congruence.
        -- intros (_ & _ & Hle' & _). lia.
      * apply Hyes. exists c, obs'. split_and!; [lia| |done..].
        by replace (i - i0) with (S (i - S i0)) in Hc by lia.
    + intros Hnot. rewrite Hno, Hr1.
      * rewrite decide_False; [done|]. intros (Hg & -> & Hj).
        apply Hnot. exists circuit, obs. rewrite Nat.sub_diag. by split_and!.
      * intros (c & obs' & Hle & Hc & Hrest). apply Hnot.
        exists c, obs'. split_and!; [lia| |tauto..].
        by replace (i - i0) with (S (i - S i0)) by lia.
Qed.

End ComputeLarge.

(** ** The checks of Compute *)

Lemma ok_OK s : ok s = true → s = OK.
Proof. by destruct s. Qed.

Lemma OP_REQUIRES_Ok_inv cond s w w' :
  OP_REQUIRES cond s w = (w', Ok tt) → cond = true ∧ w' = w.
Proof. destruct cond; [|done]. by intros [= ->]. Qed.

Lemma ParallelFor_Ok_inv {S} context total (f : nat → S → option S) s w w' s' :
  ParallelFor context total f s w = (w', Ok s') →
  run_iterations f (workers context total) s = Some s' ∧ w' = w.
Proof.
  unfold ParallelFor. destruct (run_iterations _ _ _); [|done].
  by intros [= -> ->].
Qed.

Section Compute.
Context {Q : Qsim} {O : Ostream}.
Variable bond_dim_ : Z.

Ltac run :=
  repeat first
    [ erewrite bind_Ok by (apply dim_size_Some; eassumption)
    | erewrite bind_Ok by reflexivity ].

(** The trace up to the parsing of the symbol maps. *)
Ltac run_to_batch_check Ha Hp :=
  let Hin := fresh in let Hrows := fresh in let Hcols := fresh in
  let Hst := fresh in let Hpp := fresh in let Hpm := fresh in
  let d0 := fresh "d" in let d1 := fresh "d" in
  let Hd0 := fresh in let Hd1 := fresh in let Hn := fresh in let Hm := fresh in
  destruct Ha as [Hin Hrows Hcols Hst]; destruct Hp as [Hpp Hpm];
  apply fmap_Some in Hrows as (d0 & Hd0 & Hn);
  apply fmap_Some in Hcols as (d1 & Hd1 & Hm);
  unfold Compute;
  rewrite bool_decide_eq_true_2 by done;
  run; rewrite <- Hn, <- Hm;
  unfold AddDim; rewrite !bool_decide_eq_true_2 by lia;
  run; unfold allocate_output; cbn [app];
  rewrite Hst; run; rewrite Hpp, Hpm; run; rewrite !Nat2Z.id.

(** An input that passes every check is simulated by [ComputeLarge]. *)
Lemma Compute_validated context n m programs nqs sums maps c :
  allocates context n m → parses context programs nqs sums maps →
  validates context n programs nqs maps c →
  Compute bond_dim_ context initial_world
  = ComputeLarge bond_dim_ nqs (qsim_circuits c) sums
      (allocated context n m validated_lines).
Proof.
  intros Ha Hp [Hb H1D Hres Hok]. run_to_batch_check Ha Hp.
  rewrite (bool_decide_eq_true_2 (length programs = length maps)) by done.
  rewrite H1D. run. unfold ParallelFor. rewrite Hres. run.
  rewrite Hok. run. reflexivity.
Qed.

(** A call that ends normally has passed every check. *)
Lemma Compute_Ok_inv context w' :
  Compute bond_dim_ context initial_world = (w', Ok tt) →
  ∃ n m programs nqs sums maps c,
    allocates context n m ∧ parses context programs nqs sums maps
    ∧ validates context n programs nqs maps c.
Proof.
  unfold Compute. intros E.
  apply bind_Ok_inv in E as (? & [] & E1 & E).
  apply OP_REQUIRES_Ok_inv in E1 as [Hin ->]. apply bool_decide_eq_true_1 in Hin.
  apply bind_Ok_inv in E as (? & d0 & E1 & E).
  apply dim_size_Ok_inv in E1 as [-> Hd0].
  apply bind_Ok_inv in E as (? & d1 & E1 & E).
  apply dim_size_Ok_inv in E1 as [-> Hd1].
  do 2 erewrite bind_Ok in E by reflexivity.
  unfold AddDim in E.
  destruct (decide (0 ≤ to_int d0)%Z) as [Hn|Hn];
    [rewrite (bool_decide_eq_true_2 _ Hn) in E
    |by rewrite (bool_decide_eq_false_2 _ Hn) in E].
  erewrite bind_Ok in E by reflexivity.
  destruct (decide (0 ≤ to_int d1)%Z) as [Hm|Hm];
    [rewrite (bool_decide_eq_true_2 _ Hm) in E
    |by rewrite (bool_decide_eq_false_2 _ Hm) in E].
  erewrite bind_Ok in E by reflexivity.
  apply bind_Ok_inv in E as (? & [] & E1 & E).
  unfold allocate_output in E1. cbn [app] in E1.
  apply bind_Ok_inv in E1 as (? & [] & E2 & _).
  apply OP_REQUIRES_Ok_inv in E2 as [Hst%ok_OK _].
  destruct (GetProgramsAndNumQubits context) as [s1 [[programs nqs] sums]] eqn:Hp.
  apply bind_Ok_inv in E as (? & [] & E1 & E).
  apply OP_REQUIRES_Ok_inv in E1 as [->%ok_OK _].
  apply bind_Ok_inv in E as (? & [] & _ & E).
  destruct (GetSymbolMaps context) as [s2 maps] eqn:Hm'.
  apply bind_Ok_inv in E as (? & [] & E1 & E).
  apply OP_REQUIRES_Ok_inv in E1 as [->%ok_OK _].
  apply bind_Ok_inv in E as (? & [] & E1 & E).
  apply OP_REQUIRES_Ok_inv in E1 as [Hb%bool_decide_eq_true_1 _].
  apply bind_Ok_inv in E as (? & [] & E1 & E).
  apply OP_REQUIRES_Ok_inv in E1 as [H1D%ok_OK _].
  apply bind_Ok_inv in E as (? & [] & _ & E).
  apply bind_Ok_inv in E as (? & c & E1 & E).
  apply ParallelFor_Ok_inv in E1 as [Hres _].
  apply bind_Ok_inv in E as (? & [] & E1 & _).
  apply OP_REQUIRES_Ok_inv in E1 as [Hok%ok_OK _].
  exists (Z.to_nat (to_int d0)), (Z.to_nat (to_int d1)), programs, nqs, sums, maps, c.
  split_and!; split; try done.
  - rewrite Hd0. simpl. f_equal. lia.
  - rewrite Hd1. simpl. f_equal. lia.
Qed.

(** Nothing [Compute] prints is the line of the [ComputeSmall] branch. *)
Lemma appends_Compute context :
  appends (λ line, line ≠ "THIS SHOULD NOT BE PRINTED OUT")
    (Compute bond_dim_ context).
Proof.
  unfold Compute.
  apply appends_bind; [apply appends_OP_REQUIRES|intros _].
  apply appends_bind; [|intros d0].
  { apply appends_bind; [apply appends_at_index|intros ?; apply appends_at_index]. }
  apply appends_bind; [|intros d1].
  { apply appends_bind; [apply appends_at_index|intros ?; apply appends_at_index]. }
  apply appends_bind; [by apply appends_print|intros _].
  apply appends_bind; [by apply appends_print|intros _].
  apply appends_bind; [|intros shape0].
  { unfold AddDim. case_bool_decide; [apply appends_ret|by apply appends_silent]. }
  apply appends_bind; [|intros shape].
  { unfold AddDim. case_bool_decide; [apply appends_ret|by apply appends_silent]. }
  apply appends_bind; [|intros _].
  { unfold allocate_output. destruct shape as [|? [|? [|? ?]]];
      try by apply appends_silent.
    apply appends_bind; [apply appends_OP_REQUIRES|intros _].
    by apply appends_silent. }
  destruct (GetProgramsAndNumQubits context) as [s1 [[programs nqs] sums]].
  apply appends_bind; [apply appends_OP_REQUIRES|intros _].
  apply appends_bind; [by apply appends_print|intros _].
  destruct (GetSymbolMaps context) as [s2 maps].
  apply appends_bind; [apply appends_OP_REQUIRES|intros _].
  apply appends_bind; [apply appends_OP_REQUIRES|intros _].
  apply appends_bind; [apply appends_OP_REQUIRES|intros _].
  apply appends_bind; [by apply appends_print|intros _].
  apply appends_bind; [|intros c].
  { apply appends_silent. intros w. unfold ParallelFor.
    by destruct (run_iterations _ _ _). }
  apply appends_bind; [apply appends_OP_REQUIRES|intros _].
  apply appends_bind; [by apply appends_print|intros _].
  simpl. apply appends_bind; [by apply appends_print|intros _].
  eapply appends_weaken; [|apply appends_ComputeLarge].
  by intros line [rest ->].
Qed.

Lemma CheckQubitsIn1D_from_violation i0 programs k program :
  programs !! k = Some program → program_in_1D program = false →
  ∃ i, i0 ≤ i ≤ i0 + k ∧ CheckQubitsIn1D_from i0 programs = TopologyError i.
Proof.
  revert i0 k. induction programs as [|p programs IH]; intros i0 k Hk Hbad; [done|].
  simpl. destruct (program_in_1D p) eqn:Hp.
  - destruct k as [|k]; [simpl in Hk; congruence|].
    destruct (IH (S i0) k Hk Hbad) as (i & Hi & E). exists i. split; [lia|done].
  - exists i0. split; [lia|done].
Qed.

Lemma program_in_1D_violation program op a b :
  op ∈ program → op_qubits op = [a; b] → a ≠ S b → b ≠ S a →
  program_in_1D program = false.
Proof.
  intros Hop Hq Hab Hba. unfold program_in_1D.
  induction program as [|op' program IH]; [by apply elem_of_nil in Hop|].
  simpl. apply elem_of_cons in Hop as [<-|Hop].
  - unfold operation_in_1D, adjacent. rewrite Hq.
    rewrite bool_decide_eq_false_2; [done|]. by intros [?|?].
  - rewrite IH by done. apply andb_false_r.
Qed.

Lemma fair_in_range context n programs maps nqs :
  fair_workers context →
  length programs = n → length maps = n → length nqs = n →
  Forall (in_range programs maps nqs n) (workers context n).
Proof.
  intros Hfair Hp Hm Hq. rewrite (Hfair n). apply Forall_seq. intros i Hi.
  split; [|lia]. unfold resolve_item.
  destruct (lookup_lt_is_Some_2 programs i) as [p ->]; [lia|].
  destruct (lookup_lt_is_Some_2 maps i) as [mp ->]; [lia|].
  destruct (lookup_lt_is_Some_2 nqs i) as [nq ->]; [lia|].
  by eexists.
Qed.

(** ** The claims about rejected calls *)

(** C10: a call whose number of input tensors is not 4 fails with an
    InvalidArgument status, and it does so before anything else: nothing
    has been printed, no output is allocated, nothing is parsed or
    simulated. *)
Theorem wrong_number_of_inputs context :
  num_inputs context ≠ 4%Z →
  Compute bond_dim_ context initial_world
  = (initial_world,
     Failed (InvalidArgument ("Expected 4 inputs, got "
                                +:+ pretty (num_inputs context) +:+ " inputs."))).
Proof.
  intros H. unfold Compute. by rewrite bool_decide_eq_false_2.
Qed.

(** C4: when the number of programs differs from the number of symbol
    maps, the call fails with the batch-size-mismatch error (an
    InvalidArgument status naming both sizes).  It stops right after
    parsing: no circuit is resolved or simulated, and there is no valid
    output. *)
Theorem batch_size_mismatch context n m programs nqs sums maps :
  allocates context n m → parses context programs nqs sums maps →
  length programs ≠ length maps →
  Compute bond_dim_ context initial_world
  = (allocated context n m ["parse program protos"],
     Failed (InvalidArgument
               ("Number of circuits and symbol_values do not match. Got "
                  +:+ pretty (length programs) +:+ " circuits and "
                  +:+ pretty (length maps) +:+ " symbol values.")))
  ∧ valid_output (Compute bond_dim_ context initial_world) = None.
Proof.
  intros Ha Hp Hne.
  assert (Compute bond_dim_ context initial_world
          = (allocated context n m ["parse program protos"],
             Failed (InvalidArgument
               ("Number of circuits and symbol_values do not match. Got "
                  +:+ pretty (length programs) +:+ " circuits and "
                  +:+ pretty (length maps) +:+ " symbol values.")))) as E.
  { run_to_batch_check Ha Hp.
    by rewrite (bool_decide_eq_false_2 (length programs = length maps)). }
  by rewrite E.
Qed.

(** C5: when some program of the batch has a two-qubit gate on qubits
    that are not neighbours on the chain, the call fails with a
    TopologyError (for that program or an earlier offender).  It stops at
    the topology check: no circuit is resolved or simulated, and there is
    no valid output. *)
Theorem non_adjacent_gate_aborts context n m programs nqs sums maps
    k program op a b :
  allocates context n m → parses context programs nqs sums maps →
  length programs = length maps →
  programs !! k = Some program → op ∈ program →
  op_qubits op = [a; b] → a ≠ S b → b ≠ S a →
  ∃ i, i ≤ k
    ∧ Compute bond_dim_ context initial_world
      = (allocated context n m ["parse program protos"],
         Failed (TopologyError i))
    ∧ valid_output (Compute bond_dim_ context initial_world) = None.
Proof.
  intros Ha Hp Hlen Hk Hop Hq Hab Hba.
  destruct (CheckQubitsIn1D_from_violation 0 programs k program Hk)
    as (i & Hi & E); [by eapply program_in_1D_violation|].
  exists i. split; [lia|].
  assert (Compute bond_dim_ context initial_world
          = (allocated context n m ["parse program protos"],
             Failed (TopologyError i))) as Erun.
  { run_to_batch_check Ha Hp.
    rewrite (bool_decide_eq_true_2 (length programs = length maps)) by done.
    run. unfold CheckQubitsIn1D. by rewrite E. }
  by rewrite Erun.
Qed.

(** C3: when the resolution of some batch item fails, the call fails with
    the first failure the workers observed, whatever their order.  It
    stops after the resolution phase: [ComputeLarge] is not entered, and
    there is no valid output. *)
Theorem resolution_error_aborts context n m programs nqs sums maps :
  allocates context n m → parses context programs nqs sums maps →
  length programs = length maps → CheckQubitsIn1D programs = OK →
  fair_workers context → length programs = n → length nqs = n →
  let observed := observed_statuses programs maps nqs (workers context n) in
  Exists (λ s, ok s = false) observed →
  Compute bond_dim_ context initial_world
  = (allocated context n m ["parse program protos"; "CheckQubitsIn1D"],
     Failed (first_error observed))
  ∧ ok (first_error observed) = false
  ∧ valid_output (Compute bond_dim_ context initial_world) = None.
Proof.
  intros Ha Hp Hlen H1D Hfair Hn Hq observed Hex.
  pose proof (first_error_failed observed Hex) as Hfail.
  destruct (run_iterations_Some programs maps nqs (workers context n)
              (construct_begin (length programs)))
    as (c & Hrun & Hst & _).
  { simpl. rewrite length_replicate, Hn. apply fair_in_range; [done|congruence..]. }
  rewrite sync_first_error in Hst. simpl in Hst. fold observed in Hst.
  assert (Compute bond_dim_ context initial_world
          = (allocated context n m ["parse program protos"; "CheckQubitsIn1D"],
             Failed (first_error observed))) as Erun.
  { run_to_batch_check Ha Hp.
    rewrite (bool_decide_eq_true_2 (length programs = length maps)) by done.
    rewrite H1D. run. unfold ParallelFor. rewrite Hrun. run.
    unfold OP_REQUIRES_OK. rewrite Hst, Hfail. reflexivity. }
  by rewrite Erun.
Qed.

(** ** The dispatch *)

(** C9: an input that passes parsing and every check is simulated by
    [ComputeLarge], whatever the qubit counts and the batch size; and no
    call at all takes the [ComputeSmall] branch, whose marker line is
    never printed. *)
Theorem dispatch_is_ComputeLarge context n m programs nqs sums maps c :
  allocates context n m → parses context programs nqs sums maps →
  validates context n programs nqs maps c →
  Compute bond_dim_ context initial_world
  = ComputeLarge bond_dim_ nqs (qsim_circuits c) sums
      (allocated context n m validated_lines)
  ∧ "Enter ComputeLarge" ∈ cout (Compute bond_dim_ context initial_world).1
  ∧ "THIS SHOULD NOT BE PRINTED OUT"
      ∉ cout (Compute bond_dim_ context initial_world).1.
Proof.
  intros Ha Hp Hv. split_and!.
  - exact (Compute_validated _ _ _ _ _ _ _ _ Ha Hp Hv).
  - rewrite (Compute_validated _ _ _ _ _ _ _ _ Ha Hp Hv).
    destruct (appends_ComputeLarge bond_dim_ nqs (qsim_circuits c) sums
                (allocated context n m validated_lines)) as (lines & -> & _).
    apply elem_of_app. left. simpl. set_solver.
  - destruct (appends_Compute context initial_world) as (lines & -> & Hall).
    simpl. rewrite Forall_forall in Hall. intros Hin. by apply (Hall _ Hin).
Qed.

(** ** Calls that end normally *)

Lemma parses_unique context programs nqs sums maps programs' nqs' sums' maps' :
  parses context programs nqs sums maps →
  parses context programs' nqs' sums' maps' →
  programs' = programs ∧ nqs' = nqs ∧ sums' = sums ∧ maps' = maps.
Proof. intros [E1 E2] [E1' E2']. rewrite E1 in E1'. rewrite E2 in E2'. naive_solver. Qed.

(** After a call that ended normally the output has the allocated shape;
    the cells of circuits without gates hold the sentinel, and every other
    cell holds what the buffer held before the call. *)
Lemma Compute_Ok_cells context w' :
  Compute bond_dim_ context initial_world = (w', Ok tt) →
  ∃ n m programs nqs sums maps c,
    allocates context n m ∧ parses context programs nqs sums maps
    ∧ validates context n programs nqs maps c
    ∧ dims w' = Some (n, m)
    ∧ ∀ i j,
        (sentinel_cell 0 (qsim_circuits c) sums i j
         → read w' i j = Some (f32 (-2)))
        ∧ (¬ sentinel_cell 0 (qsim_circuits c) sums i j
           → read w' i j = Some (output_memory context i j)).
Proof.
  intros E.
  destruct (Compute_Ok_inv _ _ E) as (n & m & programs & nqs & sums & maps & c
                                      & Ha & Hp & Hv).
  exists n, m, programs, nqs, sums, maps, c. split_and!; [done..| |];
    rewrite (Compute_validated _ _ _ _ _ _ _ _ Ha Hp Hv) in E;
    unfold ComputeLarge in E;
    apply bind_Ok_inv in E as (w1 & st & E & [= <-]);
    apply ComputeLarge_from_cells in E as [Hd Hr].
  - by rewrite Hd.
  - intros i j. destruct (Hr i j) as [Hyes Hno]. split; [done|].
    intros Hnot. by rewrite Hno.
Qed.

(** The circuits the simulation gets: for an item the workers visited,
    what [QsimCircuitFromProgram] made of it. *)
Lemma validated_circuits context n programs nqs maps c i :
  fair_workers context → validates context n programs nqs maps c →
  qsim_circuits c !! i
  = if decide (i < n) then snd <$> resolve_item programs maps nqs i
    else replicate (length programs) {| num_qubits := 0; gates := [] |} !! i.
Proof.
  intros Hfair [_ _ Hrun _].
  pose proof (run_iterations_is_Some _ _ _ _ _ (mk_is_Some _ _ Hrun)) as Hall.
  destruct (run_iterations_Some _ _ _ _ _ Hall) as (c' & Hrun' & _ & _ & Hlook).
  rewrite Hrun in Hrun'. injection Hrun' as <-. rewrite Hlook.
  simpl. rewrite length_replicate. rewrite Forall_forall in Hall.
  destruct (decide (i < n)) as [Hi|Hi].
  - assert (i ∈ workers context n) as Hin.
    { rewrite (Hfair n). apply elem_of_seq. lia. }
    destruct (Hall i Hin) as [_ Hlt]. simpl in Hlt. rewrite length_replicate in Hlt.
    by rewrite decide_True.
  - rewrite decide_False; [done|]. intros [Hin _].
    rewrite (Hfair n) in Hin. apply elem_of_seq in Hin. lia.
Qed.

Lemma validated_in_range context n programs nqs maps c i :
  fair_workers context → validates context n programs nqs maps c → i < n →
  is_Some (resolve_item programs maps nqs i).
Proof.
  intros Hfair [_ _ Hrun _] Hi.
  pose proof (run_iterations_is_Some _ _ _ _ _ (mk_is_Some _ _ Hrun)) as Hall.
  rewrite Forall_forall in Hall. apply Hall.
  rewrite (Hfair n). apply elem_of_seq. lia.
Qed.

Lemma resolve_item_gates programs maps nqs i program map r :
  programs !! i = Some program → maps !! i = Some map →
  resolve_item programs maps nqs i = Some r →
  gates r.2 = (resolve_program map program).2.
Proof.
  unfold resolve_item, QsimCircuitFromProgram. intros -> ->. simpl.
  destruct (nqs !! i); [|done]. simpl.
  destruct (resolve_program map program). by intros [= <-].
Qed.

(** C1 (as the code behaves): for a batch item whose resolved circuit has
    gates, the call computes no expectation and writes nothing into the
    item's row.  After the call, cell (i, j) of the output still holds
    what the freshly allocated buffer happened to hold there. *)
Theorem expectation_is_not_written context w' programs nqs sums maps
    i j program map :
  fair_workers context →
  Compute bond_dim_ context initial_world = (w', Ok tt) →
  parses context programs nqs sums maps →
  programs !! i = Some program → maps !! i = Some map →
  (resolve_program map program).2 ≠ [] →
  ∃ out, output w' = Some out
         ∧ (i < rows out → cell out i j = output_memory context i j).
Proof.
  intros Hfair E Hp Hprog Hmap Hgates.
  destruct (Compute_Ok_cells _ _ E)
    as (n & m & ? & ? & ? & ? & c & Ha & Hp' & Hv & Hd & Hr).
  destruct (parses_unique _ _ _ _ _ _ _ _ _ Hp Hp') as (-> & -> & -> & ->).
  unfold dims in Hd. destruct (output w') as [out|] eqn:Hout; [|done].
  injection Hd as Hrows Hcols. exists out. split; [done|]. intros Hi.
  destruct (Hr i j) as [_ Hno]. unfold read in Hno. rewrite Hout in Hno.
  simpl in Hno. enough (Some (cell out i j) = Some (output_memory context i j))
    by congruence.
  apply Hno. intros (circuit & obs & _ & Hc & Hg & _).
  rewrite Nat.sub_0_r, (validated_circuits _ _ _ _ _ _ _ Hfair Hv) in Hc.
  rewrite decide_True in Hc by lia.
  destruct (resolve_item programs maps nqs i) as [r|] eqn:Hres; [|done].
  injection Hc as <-.
  by rewrite (resolve_item_gates _ _ _ _ _ _ _ Hprog Hmap Hres) in Hg.
Qed.

(** C2 (amended): for a batch item whose resolved gate sequence is empty
    the observables are not evaluated: every cell (i, j) of the item, j
    below its number of observables, holds the sentinel -2.0, whatever the
    observable is. *)
Theorem empty_circuit_gets_sentinel context w' programs nqs sums maps
    i j program map obs :
  fair_workers context →
  Compute bond_dim_ context initial_world = (w', Ok tt) →
  parses context programs nqs sums maps →
  programs !! i = Some program → maps !! i = Some map →
  (resolve_program map program).2 = [] →
  sums !! i = Some obs → j < length obs →
  ∃ out, output w' = Some out ∧ cell out i j = f32 (-2).
Proof.
  intros Hfair E Hp Hprog Hmap Hgates Hobs Hj.
  destruct (Compute_Ok_cells _ _ E)
    as (n & m & ? & ? & ? & ? & c & Ha & Hp' & Hv & Hd & Hr).
  destruct (parses_unique _ _ _ _ _ _ _ _ _ Hp Hp') as (-> & -> & -> & ->).
  destruct (Hr i j) as [Hyes _]. unfold read in Hyes.
  destruct (output w') as [out|] eqn:Hout.
  - exists out. split; [done|].
    enough (Some (cell out i j) = Some (f32 (-2))) by congruence.
    apply Hyes. pose proof (validated_circuits _ _ _ _ _ _ i Hfair Hv) as Hc.
    destruct (decide (i < n)) as [Hi|Hi].
    + destruct (validated_in_range _ _ _ _ _ _ i Hfair Hv Hi) as [r Hres].
      rewrite Hres in Hc. exists r.2, obs. rewrite Nat.sub_0_r.
      split_and!; [lia|done| |done..].
      by rewrite (resolve_item_gates _ _ _ _ _ _ _ Hprog Hmap Hres).
    + apply lookup_lt_Some in Hprog.
      rewrite lookup_replicate_2 in Hc by done.
      eexists _, obs. rewrite Nat.sub_0_r. split_and!; [lia|exact Hc|done..].
  - exfalso. enough (@None float32 = Some (f32 (-2))) by done.
    apply Hyes. pose proof (validated_circuits _ _ _ _ _ _ i Hfair Hv) as Hc.
    destruct (decide (i < n)) as [Hi|Hi].
    + destruct (validated_in_range _ _ _ _ _ _ i Hfair Hv Hi) as [r Hres].
      rewrite Hres in Hc. exists r.2, obs. rewrite Nat.sub_0_r.
      split_and!; [lia|done| |done..].
      by rewrite (resolve_item_gates _ _ _ _ _ _ _ Hprog Hmap Hres).
    + apply lookup_lt_Some in Hprog.
      rewrite lookup_replicate_2 in Hc by done.
      eexists _, obs. rewrite Nat.sub_0_r. split_and!; [lia|exact Hc|done..].
Qed.

Lemma to_int_fits z : fits_int z → to_int z = z.
Proof.
  unfold fits_int, to_int. intros H.
  rewrite Z.mod_small by lia. lia.
Qed.

Lemma ShapeFn_output input shape :
  ShapeFn input = inr shape →
  shape = KnownShape [Dim (input 0) 0; Dim (input 3) 1].
Proof.
  unfold ShapeFn, TF_RETURN_IF_ERROR, WithRank.
  destruct (input 0) as [|dims0]; [|case_bool_decide as H0; [|done]];
    (destruct (input 1) as [|dims1]; [|case_bool_decide; [|done]]);
    (destruct (input 2) as [|dims2]; [|case_bool_decide; [|done]]);
    (destruct (input 3) as [|dims3]; [|case_bool_decide as H3; [|done]]);
    intros [= <-]; try done.
Qed.

(** X15: after a call that ends normally the output is a matrix whose
    number of rows is dimension 0 of the programs input and whose number
    of columns is dimension 1 of the observables input, both read into
    [int]s: they are the dimensions themselves when these fit an [int].
    The shape function announces a matrix of dimension 0 of input 0 by
    dimension 1 of input 3. *)
Theorem output_shape :
  (∀ context w',
     Compute bond_dim_ context initial_world = (w', Ok tt) →
     ∃ out d0 d1,
       output w' = Some out
       ∧ input_dim context 0 0 = Some d0 ∧ input_dim context 3 1 = Some d1
       ∧ Z.of_nat (rows out) = to_int d0 ∧ Z.of_nat (cols out) = to_int d1
       ∧ (fits_int d0 → Z.of_nat (rows out) = d0)
       ∧ (fits_int d1 → Z.of_nat (cols out) = d1))
  ∧ (∀ input shape,
       ShapeFn input = inr shape →
       shape = KnownShape [Dim (input 0%nat) 0; Dim (input 3%nat) 1]).
Proof.
  split; [|apply ShapeFn_output].
  intros context w' E.
  destruct (Compute_Ok_cells _ _ E)
    as (n & m & ? & ? & ? & ? & c & [_ Hrows Hcols _] & _ & _ & Hd & _).
  unfold dims in Hd. destruct (output w') as [out|]; [|done].
  injection Hd as Hr Hc.
  apply fmap_Some in Hrows as (d0 & Hd0 & Hn).
  apply fmap_Some in Hcols as (d1 & Hd1 & Hm).
  exists out, d0, d1. rewrite Hr, Hc. split_and!; try done.
  - intros Hfit. by rewrite Hn, to_int_fits.
  - intros Hfit. by rewrite Hm, to_int_fits.
Qed.

(** ** Independence of the workers *)

Lemma Compute_workers_Ok context workers1 workers2 w' :
  (∀ n, workers1 n ≡ₚ seq 0 n) → (∀ n, workers2 n ≡ₚ seq 0 n) →
  Compute bond_dim_ (with_workers workers1 context) initial_world = (w', Ok tt) →
  Compute bond_dim_ (with_workers workers2 context) initial_world = (w', Ok tt).
Proof.
  intros H1 H2 E.
  destruct (Compute_Ok_inv _ _ E)
    as (n & m & programs & nqs & sums & maps & c & Ha & Hp & Hv).
  rewrite (Compute_validated _ _ _ _ _ _ _ _ Ha Hp Hv) in E.
  destruct Hv as [Hb H1D Hrun Hok]. simpl in Hrun.
  destruct (run_iterations_order programs maps nqs (workers1 n) (workers2 n)
              (construct_begin (length programs)) c)
    as (c2 & Hrun2 & Hcircuits & Hok2); [by rewrite H1, H2|done|].
  rewrite (Compute_validated (with_workers workers2 context) n m programs nqs
             sums maps c2).
  - by rewrite Hcircuits.
  - by destruct Ha.
  - by destruct Hp.
  - split; [done..|]. apply ok_OK. by rewrite Hok2, Hok.
Qed.

(** X14: two calls on the same context (the same inputs and the same
    buffer handed out for the output) that differ only in their workers,
    that is in the order in which the parallel loop runs its iterations,
    give the same valid output: both give none, or both give the same
    matrix. *)
Theorem workers_do_not_matter context workers1 workers2 :
  (∀ n, workers1 n ≡ₚ seq 0 n) → (∀ n, workers2 n ≡ₚ seq 0 n) →
  valid_output (Compute bond_dim_ (with_workers workers1 context) initial_world)
  = valid_output (Compute bond_dim_ (with_workers workers2 context) initial_world).
Proof.
  intros H1 H2.
  destruct (Compute bond_dim_ (with_workers workers1 context) initial_world)
    as [w1 [[]| |]] eqn:E1.
  - by rewrite (Compute_workers_Ok _ _ _ _ H1 H2 E1).
  - destruct (Compute bond_dim_ (with_workers workers2 context) initial_world)
      as [w2 [[]| |]] eqn:E2; [|done..].
    by rewrite (Compute_workers_Ok _ _ _ _ H2 H1 E2) in E1.
  - destruct (Compute bond_dim_ (with_workers workers2 context) initial_world)
      as [w2 [[]| |]] eqn:E2; [|done..].
    by rewrite (Compute_workers_Ok _ _ _ _ H2 H1 E2) in E1.
Qed.

(** ** The life of the simulation state *)

Lemma for_indexed_app {A S} (v1 v2 : list A) (body : nat → A → S → M S) j s w :
  for_indexed j (v1 ++ v2) body s w
  = (s' ← for_indexed j v1 body s; for_indexed (j + length v1) v2 body s') w.
Proof.
  revert j s w. induction v1 as [|x v1 IH]; intros j s w; simpl.
  - by rewrite Nat.add_0_r.
  - unfold mbind, M_bind. destruct (body j x s w) as [w1 [s1| |]]; [|done..].
    rewrite IH. unfold mbind, M_bind. by rewrite Nat.add_succ_r.
Qed.

Section Sized.
Context `{!QsimLaws Q}.

Lemma sized_begin : sized (ComputeLarge_begin bond_dim_).
Proof. split; apply NumQubits_Create. Qed.

Lemma sized_after_circuit nq circuit st :
  sized st → sized (after_circuit bond_dim_ nq circuit st).
Proof.
  intros [Hsv Hscratch]. unfold sized, after_circuit, grow.
  case_bool_decide; simpl;
    rewrite apply_gates_NumQubits, NumQubits_SetStateZero, ?NumQubits_Create;
    done.
Qed.

Lemma ComputeLarge_from_sized i0 nqs circuits sums st w w' st' :
  sized st →
  ComputeLarge_from bond_dim_ i0 nqs circuits sums st w = (w', Ok st') →
  sized st'.
Proof.
  unfold ComputeLarge_from. revert i0 st w.
  induction circuits as [|circuit circuits IH]; intros i0 st w Hsized.
  - by intros [= <- <-].
  - simpl. intros E. apply bind_Ok_inv in E as (w1 & st1 & E1 & E).
    apply simulate_circuit_Ok_inv in E1 as (nq & obs & _ & _ & -> & _).
    eapply IH; [|exact E]. by apply sized_after_circuit.
Qed.

(** C6: take a run of the simulation loop and any circuit [k] of the
    batch, needing [nq] qubits.  Before it, both states are chains of
    [largest_nq] qubits.  They are reallocated, to [nq] qubits, exactly
    when [nq] exceeds that size, and are otherwise kept, so the size never
    decreases; and in both cases the gates of the circuit are applied to a
    state that has just been reset to |0...0⟩. *)
Theorem state_grows_monotonically nqs circuits sums w w' st' k circuit :
  ComputeLarge_from bond_dim_ 0 nqs circuits sums (ComputeLarge_begin bond_dim_) w
  = (w', Ok st') →
  circuits !! k = Some circuit →
  ∃ wk st wk1 nq,
    let st1 := after_circuit bond_dim_ nq circuit st in
    nqs !! k = Some nq
    ∧ ComputeLarge_from bond_dim_ 0 nqs (take k circuits) sums
        (ComputeLarge_begin bond_dim_) w = (wk, Ok st)
    ∧ ComputeLarge_from bond_dim_ 0 nqs (take (S k) circuits) sums
        (ComputeLarge_begin bond_dim_) w = (wk1, Ok st1)
    ∧ sized st ∧ sized st1
    ∧ (NumQubits (sv st) ≤ NumQubits (sv st1))%Z
    ∧ (largest_nq st ≤ largest_nq st1)%Z
    ∧ largest_nq st1 = Z.max (largest_nq st) nq
    ∧ ((nq > largest_nq st)%Z →
         scratch st1 = Create nq bond_dim_
         ∧ sv st1 = apply_gates (gates circuit)
                      (SetStateZero (Create nq bond_dim_)))
    ∧ ((nq ≤ largest_nq st)%Z →
         scratch st1 = scratch st
         ∧ sv st1 = apply_gates (gates circuit) (SetStateZero (sv st))).
Proof.
  intros Hrun Hk. unfold ComputeLarge_from in *.
  rewrite <- (take_drop_middle circuits k circuit Hk) in Hrun.
  rewrite for_indexed_app in Hrun.
  apply bind_Ok_inv in Hrun as (wk & st & Eprefix & Hrest).
  simpl in Hrest. apply bind_Ok_inv in Hrest as (wk1 & st1 & Estep & _).
  rewrite length_take_le in Estep by (apply lookup_lt_Some in Hk; lia).
  pose proof Estep as Hinv.
  apply simulate_circuit_Ok_inv in Hinv as (nq & obs & Hnq & _ & -> & _).
  assert (sized st) as Hsized
    by (eapply ComputeLarge_from_sized; [apply sized_begin|exact Eprefix]).
  exists wk, st, wk1, nq. simpl. split_and!.
  - done.
  - done.
  - rewrite (take_S_r _ _ _ Hk), for_indexed_app.
    erewrite bind_Ok by exact Eprefix.
    rewrite length_take_le by (apply lookup_lt_Some in Hk; lia).
    simpl. by erewrite bind_Ok by exact Estep.
  - done.
  - by apply sized_after_circuit.
  - destruct Hsized as [-> _].
    destruct (sized_after_circuit nq circuit st) as [Hsv _];
      [by eapply ComputeLarge_from_sized; [apply sized_begin|exact Eprefix]|].
    unfold after_circuit in Hsv. simpl in Hsv. rewrite Hsv.
    unfold grow. case_bool_decide; simpl; lia.
  - unfold grow. case_bool_decide; simpl; lia.
  - unfold grow. case_bool_decide; simpl; lia.
  - intros Hgt. unfold grow. by rewrite bool_decide_eq_true_2.
  - intros Hle. unfold grow. by rewrite bool_decide_eq_false_2 by lia.
Qed.

End Sized.

End Compute.

(** * Further properties of the kernel *)

(** ** Computations that cannot fail *)

Lemma never_fails_ret {A} (a : A) : never_fails (mret a).
Proof. by intros w w' s. Qed.

Lemma never_fails_print line : never_fails (print line).
Proof. by intros w w' s. Qed.

Lemma never_fails_at_index {A} (v : list A) i : never_fails (at_index v i).
Proof. intros w w' s. unfold at_index. by destruct (v !! i). Qed.

Lemma never_fails_output_write i j v : never_fails (output_write i j v).
Proof.
  intros w w' s. unfold output_write.
  destruct (output w); [|done]. by case_bool_decide.
Qed.

Lemma never_fails_bind {A B} (m : M A) (f : A → M B) :
  never_fails m → (∀ a, never_fails (f a)) → never_fails (m ≫= f).
Proof.
  intros Hm Hf w w' s. unfold mbind, M_bind.
  destruct (m w) as [w1 [a| |]] eqn:E; [apply Hf| |done].
  by destruct (Hm w w1 s0).
Qed.

Lemma never_fails_for_indexed {A S} (v : list A) (body : nat → A → S → M S) :
  (∀ j x s, never_fails (body j x s)) → ∀ j s, never_fails (for_indexed j v body s).
Proof.
  intros Hbody. induction v as [|x v IH]; intros j s; simpl.
  - apply never_fails_ret.
  - apply never_fails_bind; [apply Hbody|]. intros s'. apply IH.
Qed.

Lemma never_fails_with_error {A} (m : M A) : never_fails m → fails_with_error m.
Proof. intros H w w' s E. by destruct (H w w' s). Qed.

Lemma fails_OP_REQUIRES cond s : ok s = false → fails_with_error (OP_REQUIRES cond s).
Proof. intros Hs w w' s'. destruct cond; [done|]. by intros [= _ <-]. Qed.

Lemma fails_OP_REQUIRES_OK s : fails_with_error (OP_REQUIRES_OK s).
Proof.
  intros w w' s'. unfold OP_REQUIRES_OK.
  destruct (ok s) eqn:E; [done|]. by intros [= _ <-].
Qed.

Lemma rejects_early_bind {A B} (m : M A) (f : A → M B) :
  appends (λ line, line ≠ "Enter ComputeLarge") m → fails_with_error m →
  (∀ a, rejects_early (f a)) → rejects_early (m ≫= f).
Proof.
  intros Hm Hfail Hf w w' s Hw. destruct (Hm w) as (lines & Hcout & Hlines).
  assert ("Enter ComputeLarge" ∉ cout (m w).1) as Hw1.
  { rewrite Hcout, not_elem_of_app. split; [done|].
    rewrite Forall_forall in Hlines. intros Hin. by apply (Hlines _ Hin). }
  unfold mbind, M_bind. destruct (m w) as [w1 [a| |]] eqn:E; simpl in Hw1.
  - by apply Hf.
  - intros [= <- <-]. split; [done|]. by eapply Hfail.
  - done.
Qed.

Lemma never_fails_rejects_early {A} (m : M A) : never_fails m → rejects_early m.
Proof. intros H w w' s _ E. by destruct (H w w' s). Qed.

Section Simulation.
Context {Q : Qsim} {O : Ostream}.
Variable bond_dim_ : Z.

Lemma never_fails_simulate_circuit nqs sums i circuit st :
  never_fails (simulate_circuit bond_dim_ nqs sums i circuit st).
Proof.
  unfold simulate_circuit.
  apply never_fails_bind; [apply never_fails_print|intros _].
  apply never_fails_bind; [apply never_fails_at_index|intros nq].
  apply never_fails_bind; [apply never_fails_print|intros _].
  apply never_fails_bind; [|intros state].
  { apply never_fails_for_indexed. intros j g s. unfold apply_gate.
    repeat (apply never_fails_bind; [apply never_fails_print|intros _]).
    apply never_fails_ret. }
  apply never_fails_bind; [apply never_fails_at_index|intros obs].
  apply never_fails_bind; [|intros _; apply never_fails_ret].
  apply never_fails_for_indexed. intros j sum []. unfold write_expectation.
  case_bool_decide; [|apply never_fails_print].
  apply never_fails_bind; [apply never_fails_print|intros _].
  apply never_fails_output_write.
Qed.

Lemma never_fails_ComputeLarge nqs circuits sums :
  never_fails (ComputeLarge bond_dim_ nqs circuits sums).
Proof.
  unfold ComputeLarge, ComputeLarge_from.
  apply never_fails_bind; [|intros _; apply never_fails_ret].
  apply never_fails_for_indexed, never_fails_simulate_circuit.
Qed.

(** X5: the simulation never reports an error.  Whatever the circuits
    and the observables, a run of [ComputeLarge] ends normally or in
    undefined behaviour (an index out of range), never in a failed status:
    the one status check of its body is commented out. *)
Theorem simulation_reports_no_error nqs circuits sums w :
  (ComputeLarge bond_dim_ nqs circuits sums w).2 = Ok tt
  ∨ (ComputeLarge bond_dim_ nqs circuits sums w).2 = Undefined.
Proof.
  destruct (ComputeLarge bond_dim_ nqs circuits sums w) as [w' [[]|s|]] eqn:E;
    [by left| |by right].
  by destruct (never_fails_ComputeLarge _ _ _ _ _ _ E).
Qed.

(** *** When the loop runs to its end *)

Lemma write_sentinels_Ok i j obs w mtx :
  output w = Some mtx →
  (obs = [] ∨ (i < rows mtx ∧ j + length obs ≤ cols mtx)) →
  ∃ w' mtx',
    for_indexed j obs (write_expectation i []) tt w = (w', Ok tt)
    ∧ output w' = Some mtx' ∧ rows mtx' = rows mtx ∧ cols mtx' = cols mtx.
Proof.
  revert j w mtx. induction obs as [|sum obs IH]; intros j w mtx Hout Hrange.
  - by exists w, mtx.
  - destruct Hrange as [|[Hi Hj]]; [done|]. simpl in Hj.
    assert (∃ w1, write_expectation i [] j sum tt w = (w1, Ok tt)
                  ∧ output w1 = Some (matrix_write mtx i j (f32 (-2))))
      as (w1 & E1 & Ho1).
    { unfold write_expectation. rewrite bool_decide_eq_true_2 by done.
      erewrite bind_Ok by reflexivity. unfold output_write. simpl.
      rewrite Hout, bool_decide_eq_true_2 by lia. by eexists. }
    simpl. erewrite bind_Ok by exact E1.
    destruct (IH (S j) w1 _ Ho1) as (w' & mtx' & E & Ho & Hr & Hc);
      [right; simpl; split; [exact Hi|lia]|].
    exists w', mtx'. by split_and!.
Qed.

Lemma simulate_circuit_Ok nqs sums i circuit st w mtx nq obs :
  nqs !! i = Some nq → sums !! i = Some obs → output w = Some mtx →
  (gates circuit = [] → obs = [] ∨ (i < rows mtx ∧ length obs ≤ cols mtx)) →
  ∃ w' mtx',
    simulate_circuit bond_dim_ nqs sums i circuit st w
    = (w', Ok (after_circuit bond_dim_ nq circuit st))
    ∧ output w' = Some mtx' ∧ rows mtx' = rows mtx ∧ cols mtx' = cols mtx.
Proof.
  intros Hnq Hobs Hout Hrange. unfold simulate_circuit.
  erewrite bind_Ok by reflexivity.
  erewrite bind_Ok by (by apply at_index_Some).
  erewrite bind_Ok by reflexivity.
  match goal with
  | |- context [for_indexed 0 ?gs apply_gate ?state ≫= _] =>
      match goal with
      | |- ∃ _ _, (_ ≫= _) ?w0 = _ ∧ _ =>
          destruct (run_gates 0 gs state w0) as (w2 & Eg & Ho2)
      end
  end.
  erewrite bind_Ok by exact Eg.
  erewrite bind_Ok by (by apply at_index_Some).
  destruct (decide (gates circuit = [])) as [Hg|Hg].
  - rewrite Hg.
    destruct (write_sentinels_Ok i 0 obs w2 mtx) as (w' & mtx' & E & Ho & Hr & Hc).
    { by rewrite Ho2. }
    { destruct (Hrange Hg) as [|[? ?]]; [by left|right; split; [done|lia]]. }
    exists w', mtx'. erewrite bind_Ok by exact E.
    unfold after_circuit. rewrite Hg. by split_and!.
  - destruct (run_observables_unwritten i _ 0 obs w2 Hg) as (w' & E & Ho).
    exists w', mtx. erewrite bind_Ok by exact E.
    split_and!; [done| |done..]. by rewrite Ho, Ho2.
Qed.

Lemma ComputeLarge_from_Ok i0 nqs circuits sums st w mtx :
  output w = Some mtx →
  (∀ k circuit, circuits !! k = Some circuit →
     ∃ nq obs, nqs !! (i0 + k) = Some nq ∧ sums !! (i0 + k) = Some obs
       ∧ (gates circuit = [] →
          obs = [] ∨ (i0 + k < rows mtx ∧ length obs ≤ cols mtx))) →
  ∃ w' st',
    ComputeLarge_from bond_dim_ i0 nqs circuits sums st w = (w', Ok st').
Proof.
  unfold ComputeLarge_from. revert i0 st w mtx.
  induction circuits as [|circuit circuits IH]; intros i0 st w mtx Hout Hall.
  - by exists w, st.
  - destruct (Hall 0 circuit eq_refl) as (nq & obs & Hnq & Hobs & Hrange).
    rewrite Nat.add_0_r in Hnq, Hobs, Hrange.
    destruct (simulate_circuit_Ok nqs sums i0 circuit st w mtx nq obs)
      as (w1 & mtx1 & E1 & Ho1 & Hr1 & Hc1); [done..|].
    simpl. erewrite bind_Ok by exact E1.
    apply (IH (S i0) _ w1 mtx1 Ho1). intros k c Hk.
    destruct (Hall (S k) c Hk) as (nq' & obs' & ? & ? & ?).
    exists nq', obs'. rewrite Hr1, Hc1.
    by replace (S i0 + k) with (i0 + S k) by lia.
Qed.

Lemma simulation_completes_helper nqs circuits sums w mtx :
  output w = Some mtx →
  length circuits ≤ length nqs → length circuits ≤ length sums →
  (∀ i circuit obs,
     circuits !! i = Some circuit → gates circuit = [] →
     sums !! i = Some obs → obs ≠ [] →
     i < rows mtx ∧ length obs ≤ cols mtx) →
  ∃ w', ComputeLarge bond_dim_ nqs circuits sums w = (w', Ok tt).
Proof.
  intros Hout Hnqs Hsums Hrange.
  destruct (ComputeLarge_from_Ok 0 nqs circuits sums
              (ComputeLarge_begin bond_dim_) w mtx Hout) as (w' & st' & E).
  { intros k circuit Hk. pose proof (lookup_lt_Some _ _ _ Hk) as Hlt.
    destruct (lookup_lt_is_Some_2 nqs k) as [nq Hnq]; [lia|].
    destruct (lookup_lt_is_Some_2 sums k) as [obs Hobs]; [lia|].
    exists nq, obs. split_and!; [done..|]. intros Hg.
    destruct obs as [|sum obs]; [by left|right].
    by apply (Hrange k circuit (sum :: obs)). }
  exists w'. unfold ComputeLarge. by erewrite bind_Ok by exact E.
Qed.


(** *** The size of the state at the end *)

Lemma largest_nq_after_circuit nq circuit st :
  largest_nq (after_circuit bond_dim_ nq circuit st) = Z.max (largest_nq st) nq.
Proof. unfold after_circuit, grow. case_bool_decide; simpl; lia. Qed.

Lemma ComputeLarge_from_largest i0 nqs circuits sums st w w' st' :
  ComputeLarge_from bond_dim_ i0 nqs circuits sums st w = (w', Ok st') →
  largest_nq st'
  = foldl Z.max (largest_nq st) (take (length circuits) (drop i0 nqs)).
Proof.
  unfold ComputeLarge_from. revert i0 st w.
  induction circuits as [|circuit circuits IH]; intros i0 st w.
  - by intros [= <- <-].
  - simpl. intros E. apply bind_Ok_inv in E as (w1 & st1 & E1 & E).
    apply simulate_circuit_Ok_inv in E1 as (nq & obs & Hnq & _ & -> & _).
    apply IH in E. rewrite E, largest_nq_after_circuit.
    by rewrite (drop_S _ _ _ Hnq).
Qed.

Lemma foldl_max_from a b (l : list Z) :
  foldl Z.max (Z.max a b) l = Z.max a (foldl Z.max b l).
Proof.
  revert b. induction l as [|x l IH]; intros b; [done|].
  simpl. by rewrite <- IH, Z.max_assoc.
Qed.

(** X7: after a run of the simulation loop over a batch whose qubit
    counts are [nqs], the recorded size [largest_nq], and with it the
    number of qubits of the state and of the scratch state, is the largest
    of the counts and 1: the maximum that [Compute] takes over
    [num_qubits], or 1 when that is smaller. *)
Theorem final_state_size `{!QsimLaws Q} nqs circuits sums w w' st' :
  ComputeLarge_from bond_dim_ 0 nqs circuits sums (ComputeLarge_begin bond_dim_) w
  = (w', Ok st') →
  length nqs = length circuits →
  largest_nq st' = Z.max 1 (foldl Z.max 0%Z nqs)
  ∧ NumQubits (sv st') = Z.max 1 (foldl Z.max 0%Z nqs)
  ∧ NumQubits (scratch st') = Z.max 1 (foldl Z.max 0%Z nqs).
Proof.
  intros E Hlen.
  assert (largest_nq st' = Z.max 1 (foldl Z.max 0%Z nqs)) as Hl.
  { rewrite (ComputeLarge_from_largest _ _ _ _ _ _ _ _ E).
    rewrite drop_0, <- Hlen, firstn_all. simpl.
    by rewrite <- foldl_max_from. }
  destruct (ComputeLarge_from_sized bond_dim_ 0 nqs circuits sums _ w w' st'
              (sized_begin bond_dim_) E) as [Hsv Hscratch].
  split_and!; congruence.
Qed.

End Simulation.

(** ** The resolution loop *)

Lemma ordered_in_range programs maps nqs order n :
  order ≡ₚ seq 0 n →
  n ≤ length programs → n ≤ length maps → n ≤ length nqs →
  Forall (in_range programs maps nqs (length programs)) order.
Proof.
  intros Hperm Hp Hm Hq. rewrite Hperm. apply Forall_seq. intros i Hi.
  split; [|lia]. unfold resolve_item.
  destruct (lookup_lt_is_Some_2 programs i) as [p ->]; [lia|].
  destruct (lookup_lt_is_Some_2 maps i) as [mp ->]; [lia|].
  destruct (lookup_lt_is_Some_2 nqs i) as [nq ->]; [lia|].
  by eexists.
Qed.

(** X11: whatever the order in which the workers run the iterations of
    the resolution loop over [n] items, the loop is defined as soon as the
    three vectors hold [n] elements; it then leaves in slot [i] the circuit
    built from program [i], symbol map [i] and qubit count [i], and leaves
    the slots from [n] on as they were constructed, empty. *)
Theorem resolution_fills_slots programs maps nqs order n :
  order ≡ₚ seq 0 n →
  n ≤ length programs → n ≤ length maps → n ≤ length nqs →
  ∃ c,
    run_iterations (construct_f programs maps nqs) order
      (construct_begin (length programs)) = Some c
    ∧ length (qsim_circuits c) = length programs
    ∧ (∀ i, i < n →
         ∃ p mp nq,
           programs !! i = Some p ∧ maps !! i = Some mp ∧ nqs !! i = Some nq
           ∧ qsim_circuits c !! i = Some (QsimCircuitFromProgram p mp nq).2)
    ∧ (∀ i, n ≤ i < length programs →
         qsim_circuits c !! i = Some {| num_qubits := 0; gates := [] |}).
Proof.
  intros Hperm Hp Hm Hq.
  destruct (run_iterations_Some programs maps nqs order
              (construct_begin (length programs)))
    as (c & Hrun & _ & Hlen & Hlook).
  { simpl. rewrite length_replicate. by apply ordered_in_range with n. }
  simpl in Hlen, Hlook. rewrite length_replicate in Hlen, Hlook.
  exists c. split_and!; [done..| |].
  - intros i Hi. rewrite Hlook, decide_True; last first.
    { split; [|lia]. rewrite Hperm. apply elem_of_seq. lia. }
    unfold resolve_item.
    destruct (lookup_lt_is_Some_2 programs i) as [p ->]; [lia|].
    destruct (lookup_lt_is_Some_2 maps i) as [mp ->]; [lia|].
    destruct (lookup_lt_is_Some_2 nqs i) as [nq ->]; [lia|].
    by exists p, mp, nq.
  - intros i [Hi Hlt]. rewrite Hlook, decide_False; last first.
    { intros [Hin _]. rewrite Hperm in Hin. apply elem_of_seq in Hin. lia. }
    by apply lookup_replicate_2.
Qed.

(** ** The shape function *)

Lemma WithRank_inr shape rank :
  has_rank shape rank → ∃ refined, WithRank shape rank = inr refined.
Proof.
  destruct shape as [|dims]; simpl; [by eexists|].
  intros H. rewrite bool_decide_eq_true_2 by done. by eexists.
Qed.

Lemma WithRank_inl shape rank :
  ¬ has_rank shape rank → ∃ message, WithRank shape rank = inl (InvalidArgument message).
Proof.
  destruct shape as [|dims]; simpl; [done|].
  intros H. rewrite bool_decide_eq_false_2 by done. by eexists.
Qed.

Lemma has_rank_dec shape rank : has_rank shape rank ∨ ¬ has_rank shape rank.
Proof.
  destruct shape as [|dims]; simpl; [by left|].
  destruct (decide (length dims = rank)); [by left|by right].
Qed.

(** X10: the shape function accepts exactly the inputs whose ranks, where
    they are known, are 1 for the programs, 1 for the symbol names, 2 for
    the symbol values and 2 for the observables; every other input is
    refused with an InvalidArgument status. *)
Theorem ShapeFn_accepts input :
  ((∃ shape, ShapeFn input = inr shape)
   ↔ has_rank (input 0%nat) 1 ∧ has_rank (input 1%nat) 1
     ∧ has_rank (input 2%nat) 2 ∧ has_rank (input 3%nat) 2)
  ∧ ((∃ shape, ShapeFn input = inr shape)
     ∨ (∃ message, ShapeFn input = inl (InvalidArgument message))).
Proof.
  unfold ShapeFn, TF_RETURN_IF_ERROR.
  destruct (has_rank_dec (input 0%nat) 1) as [H0|H0];
    [destruct (WithRank_inr _ _ H0) as [r0 ->]
    |destruct (WithRank_inl _ _ H0) as [m0 ->]];
    [|split; [split; [by intros [? ?]|tauto]|right; by eexists]].
  destruct (has_rank_dec (input 1%nat) 1) as [H1|H1];
    [destruct (WithRank_inr _ _ H1) as [r1 ->]
    |destruct (WithRank_inl _ _ H1) as [m1 ->]];
    [|split; [split; [by intros [? ?]|tauto]|right; by eexists]].
  destruct (has_rank_dec (input 2%nat) 2) as [H2|H2];
    [destruct (WithRank_inr _ _ H2) as [r2 ->]
    |destruct (WithRank_inl _ _ H2) as [m2 ->]];
    [|split; [split; [by intros [? ?]|tauto]|right; by eexists]].
  destruct (has_rank_dec (input 3%nat) 2) as [H3|H3];
    [destruct (WithRank_inr _ _ H3) as [r3 ->]
    |destruct (WithRank_inl _ _ H3) as [m3 ->]];
    [|split; [split; [by intros [? ?]|tauto]|right; by eexists]].
  split; [split; [done|by eexists]|left; by eexists].
Qed.

(** ** Calls that are rejected, and calls that are not *)

Section Calls.
Context {Q : Qsim} {O : Ostream}.
Variable bond_dim_ : Z.

Ltac run :=
  repeat first
    [ erewrite bind_Ok by (apply dim_size_Some; eassumption)
    | erewrite bind_Ok by reflexivity ].

(** The trace up to the allocation of the output. *)
Ltac run_to_allocation Hin Hrows Hcols :=
  let d0 := fresh "d" in let d1 := fresh "d" in
  let Hd0 := fresh in let Hd1 := fresh in let Hn := fresh in let Hm := fresh in
  apply fmap_Some in Hrows as (d0 & Hd0 & Hn);
  apply fmap_Some in Hcols as (d1 & Hd1 & Hm);
  unfold Compute;
  rewrite bool_decide_eq_true_2 by done;
  run; rewrite <- Hn, <- Hm;
  unfold AddDim; rewrite !bool_decide_eq_true_2 by lia;
  run; unfold allocate_output; cbn [app].

(** X1: when the allocation of the output fails, the call fails with the
    status of the allocation.  The two sizes have been printed, the
    context has no output, and nothing has been parsed. *)
Theorem allocation_failure context n m :
  num_inputs context = 4%Z →
  to_int <$> input_dim context 0 0 = Some (Z.of_nat n) →
  to_int <$> input_dim context 3 1 = Some (Z.of_nat m) →
  ok (allocate_status context) = false →
  Compute bond_dim_ context initial_world
  = (unallocated n m, Failed (allocate_status context)).
Proof.
  intros Hin Hrows Hcols Hbad. run_to_allocation Hin Hrows Hcols.
  unfold OP_REQUIRES_OK. rewrite Hbad. reflexivity.
Qed.

(** X2: when [GetProgramsAndNumQubits] fails, the call fails with its
    status, right after the allocation: the line that follows parsing is
    not printed, and there is no valid output. *)
Theorem programs_parse_failure context n m s vectors :
  allocates context n m →
  GetProgramsAndNumQubits context = (s, vectors) → ok s = false →
  Compute bond_dim_ context initial_world = (allocated context n m [], Failed s)
  ∧ valid_output (Compute bond_dim_ context initial_world) = None.
Proof.
  intros [Hin Hrows Hcols Hst] Hp Hbad.
  assert (Compute bond_dim_ context initial_world
          = (allocated context n m [], Failed s)) as E.
  { run_to_allocation Hin Hrows Hcols. rewrite Hst. run.
    rewrite Hp. destruct vectors as [[programs nqs] sums].
    unfold OP_REQUIRES_OK. rewrite Hbad, !Nat2Z.id. reflexivity. }
  by rewrite E.
Qed.

(** X3: when the programs parse and [GetSymbolMaps] fails, the call fails
    with the status of [GetSymbolMaps], before the batch sizes are
    compared and before any circuit is built; there is no valid output. *)
Theorem symbol_maps_failure context n m vectors s maps :
  allocates context n m →
  GetProgramsAndNumQubits context = (OK, vectors) →
  GetSymbolMaps context = (s, maps) → ok s = false →
  Compute bond_dim_ context initial_world
  = (allocated context n m ["parse program protos"], Failed s)
  ∧ valid_output (Compute bond_dim_ context initial_world) = None.
Proof.
  intros [Hin Hrows Hcols Hst] Hp Hm Hbad.
  assert (Compute bond_dim_ context initial_world
          = (allocated context n m ["parse program protos"], Failed s)) as E.
  { run_to_allocation Hin Hrows Hcols. rewrite Hst. run.
    rewrite Hp. destruct vectors as [[programs nqs] sums]. run.
    rewrite Hm. unfold OP_REQUIRES_OK. rewrite Hbad, !Nat2Z.id. reflexivity. }
  by rewrite E.
Qed.

Lemma rejects_early_Compute context : rejects_early (Compute bond_dim_ context).
Proof.
  unfold Compute.
  apply rejects_early_bind;
    [apply appends_OP_REQUIRES|by apply fails_OP_REQUIRES|intros _].
  apply rejects_early_bind; [| |intros d0].
  { apply appends_bind; [apply appends_at_index|intros ?; apply appends_at_index]. }
  { apply never_fails_with_error, never_fails_bind;
      [apply never_fails_at_index|intros ?; apply never_fails_at_index]. }
  apply rejects_early_bind; [| |intros d1].
  { apply appends_bind; [apply appends_at_index|intros ?; apply appends_at_index]. }
  { apply never_fails_with_error, never_fails_bind;
      [apply never_fails_at_index|intros ?; apply never_fails_at_index]. }
  apply rejects_early_bind;
    [by apply appends_print|apply never_fails_with_error, never_fails_print|intros _].
  apply rejects_early_bind;
    [by apply appends_print|apply never_fails_with_error, never_fails_print|intros _].
  apply rejects_early_bind; [| |intros shape0].
  { unfold AddDim. case_bool_decide; [apply appends_ret|by apply appends_silent]. }
  { unfold AddDim. by case_bool_decide. }
  apply rejects_early_bind; [| |intros shape].
  { unfold AddDim. case_bool_decide; [apply appends_ret|by apply appends_silent]. }
  { unfold AddDim. by case_bool_decide. }
  apply rejects_early_bind; [| |intros _].
  { unfold allocate_output. destruct shape as [|? [|? [|? ?]]];
      try by apply appends_silent.
    apply appends_bind; [apply appends_OP_REQUIRES|intros _].
    by apply appends_silent. }
  { unfold allocate_output. destruct shape as [|? [|? [|? ?]]]; try done.
    intros w w' s. unfold mbind, M_bind.
    destruct (OP_REQUIRES_OK _ w) as [w1 [[]| |]] eqn:E; [done| |done].
    intros [= <- <-]. by eapply fails_OP_REQUIRES_OK. }
  destruct (GetProgramsAndNumQubits context) as [s1 [[programs nqs] sums]].
  apply rejects_early_bind;
    [apply appends_OP_REQUIRES|apply fails_OP_REQUIRES_OK|intros _].
  apply rejects_early_bind;
    [by apply appends_print|apply never_fails_with_error, never_fails_print|intros _].
  destruct (GetSymbolMaps context) as [s2 maps].
  apply rejects_early_bind;
    [apply appends_OP_REQUIRES|apply fails_OP_REQUIRES_OK|intros _].
  apply rejects_early_bind;
    [apply appends_OP_REQUIRES|by apply fails_OP_REQUIRES|intros _].
  apply rejects_early_bind;
    [apply appends_OP_REQUIRES|apply fails_OP_REQUIRES_OK|intros _].
  apply rejects_early_bind;
    [by apply appends_print|apply never_fails_with_error, never_fails_print|intros _].
  apply rejects_early_bind; [| |intros c].
  { apply appends_silent. intros w. unfold ParallelFor.
    by destruct (run_iterations _ _ _). }
  { intros w w' s. unfold ParallelFor. by destruct (run_iterations _ _ _). }
  apply rejects_early_bind;
    [apply appends_OP_REQUIRES|apply fails_OP_REQUIRES_OK|intros _].
  apply rejects_early_bind;
    [by apply appends_print|apply never_fails_with_error, never_fails_print|intros _].
  simpl. apply never_fails_rejects_early.
  apply never_fails_bind; [apply never_fails_print|intros _].
  apply never_fails_ComputeLarge.
Qed.

(** X4: whatever makes a call fail, it fails before the simulation: the
    line that announces [ComputeLarge] has not been printed, the status is
    not OK, and the context holds no valid output. *)
Theorem every_failure_precedes_simulation context w' s :
  Compute bond_dim_ context initial_world = (w', Failed s) →
  ("Enter ComputeLarge" ∉ cout w') ∧ ok s = false
  ∧ valid_output (Compute bond_dim_ context initial_world) = None.
Proof.
  intros E. destruct (rejects_early_Compute context initial_world w' s) as [H1 H2];
    [by apply not_elem_of_nil|done|].
  split_and!; [done..|]. by rewrite E.
Qed.

(** X8: a well-formed call ends normally.  Take a call that allocates an
    [n × m] output and parses [n] programs, symbol maps, qubit counts and
    rows of at most [m] observables; if the programs pass the topology
    check and [QsimCircuitFromProgram] succeeds on every item, the call
    returns without error, whatever the order of the workers. *)
Theorem well_formed_call_succeeds context n m programs nqs sums maps :
  allocates context n m → parses context programs nqs sums maps →
  fair_workers context →
  length programs = n → length maps = n → length nqs = n → length sums = n →
  CheckQubitsIn1D programs = OK →
  (∀ i p mp nq,
     programs !! i = Some p → maps !! i = Some mp → nqs !! i = Some nq →
     (QsimCircuitFromProgram p mp nq).1 = OK) →
  Forall (λ obs, length obs ≤ m) sums →
  ∃ w', Compute bond_dim_ context initial_world = (w', Ok tt).
Proof.
  intros Ha Hp Hfair Hlp Hlm Hlq Hls H1D Hres Hobs.
  destruct (run_iterations_Some programs maps nqs (workers context n)
              (construct_begin (length programs)))
    as (c & Hrun & Hst & Hlen & _).
  { simpl. rewrite length_replicate.
    apply ordered_in_range with n; [apply Hfair|lia..]. }
  simpl in Hlen. rewrite length_replicate in Hlen.
  assert (parse_status c = OK) as Hok.
  { apply ok_OK. rewrite Hst, sync_first_error. simpl.
    apply first_error_ok, Forall_forall. intros s Hs.
    apply list_elem_of_omap in Hs as (i & _ & Hi).
    apply fmap_Some in Hi as (r & Hr & ->).
    unfold resolve_item in Hr.
    destruct (programs !! i) as [p|] eqn:Ep; [|done].
    destruct (maps !! i) as [mp|] eqn:Em; [|done].
    destruct (nqs !! i) as [nq|] eqn:Eq; [|done].
    simpl in Hr. injection Hr as <-.
    by rewrite (Hres i p mp nq Ep Em Eq). }
  rewrite (Compute_validated bond_dim_ context n m programs nqs sums maps c Ha Hp);
    [|split; [congruence|done..]].
  apply (simulation_completes_helper bond_dim_ nqs (qsim_circuits c) sums _
           {| rows := n; cols := m; cell := output_memory context |});
    [done|lia..|].
  intros i circuit obs Hc _ Hs _. split.
  - apply lookup_lt_Some in Hc. simpl. lia.
  - rewrite Forall_forall in Hobs. apply Hobs. by eapply list_elem_of_lookup_2.
Qed.

(** X12: the empty batch.  A call with no programs and no symbol maps
    ends normally with an output of no rows; the simulation loop does not
    run, and nothing is printed after the line that announces it. *)
Theorem empty_batch context m nqs sums :
  allocates context 0 m → parses context [] nqs sums [] →
  workers context 0 = [] →
  Compute bond_dim_ context initial_world
  = (allocated context 0 m validated_lines, Ok tt).
Proof.
  intros Ha Hp Hw.
  rewrite (Compute_validated bond_dim_ context 0 m [] nqs sums [] (construct_begin 0)
             Ha Hp); [done|].
  split; [done..| |done]. by rewrite Hw.
Qed.

(** X13: a call that ends normally has passed every check, item by
    item.  The batch sizes agree, the topology check has passed, and
    [QsimCircuitFromProgram] has succeeded on every one of the items the
    workers ran, that is on every row of the output: no valid output
    comes with a failed item. *)
Theorem normal_end_passed_every_check context w' programs nqs sums maps :
  fair_workers context →
  Compute bond_dim_ context initial_world = (w', Ok tt) →
  parses context programs nqs sums maps →
  ∃ n m,
    allocates context n m
    ∧ dims w' = Some (n, m)
    ∧ length programs = length maps
    ∧ CheckQubitsIn1D programs = OK
    ∧ ∀ i, i < n →
        ∃ p mp nq,
          programs !! i = Some p ∧ maps !! i = Some mp ∧ nqs !! i = Some nq
          ∧ (QsimCircuitFromProgram p mp nq).1 = OK.
Proof.
  intros Hfair E Hp.
  destruct (Compute_Ok_cells _ _ _ E)
    as (n & m & ? & ? & ? & ? & c & Ha & Hp' & Hv & Hd & _).
  destruct (parses_unique _ _ _ _ _ _ _ _ _ Hp Hp') as (-> & -> & -> & ->).
  exists n, m. destruct Hv as [Hb H1D Hrun Hok]. split_and!; [done..|].
  intros i Hi.
  pose proof (run_iterations_is_Some _ _ _ _ _ (mk_is_Some _ _ Hrun)) as Hall.
  destruct (run_iterations_Some _ _ _ _ _ Hall) as (c' & Hrun' & Hst & _).
  rewrite Hrun in Hrun'. injection Hrun' as <-.
  rewrite sync_first_error in Hst. simpl in Hst.
  assert (ok (first_error (observed_statuses programs maps nqs
                             (workers context n))) = true) as Hfirst
    by by rewrite <- Hst, Hok.
  apply first_error_ok in Hfirst.
  rewrite Forall_forall in Hfirst. rewrite Forall_forall in Hall.
  assert (i ∈ workers context n) as Hin.
  { rewrite (Hfair n). apply elem_of_seq. lia. }
  destruct (Hall i Hin) as [[r Hr] _].
  assert (ok r.1 = true) as Hr1.
  { apply Hfirst, list_elem_of_omap. exists i. split; [done|]. by rewrite Hr. }
  unfold resolve_item in Hr.
  destruct (programs !! i) as [p|]; [|done].
  destruct (maps !! i) as [mp|]; [|done].
  destruct (nqs !! i) as [nq|]; [|done].
  simpl in Hr. injection Hr as <-.
  exists p, mp, nq. split_and!; [done..|]. by apply ok_OK.
Qed.

End Calls.

(** ** What the output does not depend on *)

Lemma agree_ret {A B} (a : A) (b : B) : agree (mret a) (mret b).
Proof. by intros w1 w2 H. Qed.

Lemma agree_undefined {A B} : agree (@undefined A) (@undefined B).
Proof. by intros w1 w2 H. Qed.

Lemma agree_print line1 line2 : agree (print line1) (print line2).
Proof. by intros w1 w2 H. Qed.

Lemma agree_output_write i j v : agree (output_write i j v) (output_write i j v).
Proof.
  intros w1 w2 H. unfold output_write. rewrite H.
  destruct (output w2) as [mtx|] eqn:E; [|by simpl; rewrite H, E].
  case_bool_decide; [done|]. by simpl; rewrite H, E.
Qed.

Lemma agree_bind {A A' B B'} (m1 : M A) (m2 : M A') (f1 : A → M B) (f2 : A' → M B') :
  agree m1 m2 → (∀ a a', agree (f1 a) (f2 a')) → agree (m1 ≫= f1) (m2 ≫= f2).
Proof.
  intros Hm Hf w1 w2 H. destruct (Hm w1 w2 H) as [Ho Hr].
  unfold mbind, M_bind.
  destruct (m1 w1) as [w1' [a| |]], (m2 w2) as [w2' [a'| |]];
    simpl in *; try done.
  by apply Hf.
Qed.

Lemma agree_for_indexed {A S S'} (v : list A)
    (body1 : nat → A → S → M S) (body2 : nat → A → S' → M S') :
  (∀ j x s s', agree (body1 j x s) (body2 j x s')) →
  ∀ j s s', agree (for_indexed j v body1 s) (for_indexed j v body2 s').
Proof.
  intros Hbody. induction v as [|x v IH]; intros j s s'; simpl.
  - apply agree_ret.
  - apply agree_bind; [apply Hbody|]. intros a a'. apply IH.
Qed.

Lemma agree_ret_bind {A B B'} (x : A) (f1 : A → M B) (f2 : A → M B') :
  agree (f1 x) (f2 x) → agree (mret x ≫= f1) (mret x ≫= f2).
Proof. intros H w1 w2. apply H. Qed.

Lemma agree_undefined_bind {A B B'} (f1 : A → M B) (f2 : A → M B') :
  agree (undefined ≫= f1) (undefined ≫= f2).
Proof. by intros w1 w2 H. Qed.

Lemma agree_at_index_bind {A B B'} (v : list A) i (f1 : A → M B) (f2 : A → M B') :
  (∀ x, agree (f1 x) (f2 x)) → agree (at_index v i ≫= f1) (at_index v i ≫= f2).
Proof.
  intros H. unfold at_index.
  destruct (v !! i); [by apply agree_ret_bind|apply agree_undefined_bind].
Qed.

Lemma agree_ComputeLarge (Q1 Q2 : Qsim) (O1 O2 : Ostream) b1 b2 nqs circuits sums :
  agree (@ComputeLarge Q1 O1 b1 nqs circuits sums)
        (@ComputeLarge Q2 O2 b2 nqs circuits sums).
Proof.
  unfold ComputeLarge, ComputeLarge_from.
  apply agree_bind; [|intros; apply agree_ret].
  apply agree_for_indexed. intros i circuit st st'. unfold simulate_circuit.
  apply agree_bind; [apply agree_print|intros _ _].
  apply agree_at_index_bind. intros nq.
  apply agree_bind; [apply agree_print|intros _ _].
  apply agree_bind; [|intros state1 state2].
  { apply agree_for_indexed. intros j g s s'. unfold apply_gate.
    repeat (apply agree_bind; [apply agree_print|intros _ _]).
    apply agree_ret. }
  apply agree_at_index_bind. intros obs.
  apply agree_bind; [|intros; apply agree_ret].
  apply agree_for_indexed. intros j sum [] []. unfold write_expectation.
  case_bool_decide; [|apply agree_print].
  apply agree_bind; [apply agree_print|intros _ _].
  apply agree_output_write.
Qed.

Lemma Compute_Ok_any_simulator (Q1 Q2 : Qsim) (O1 O2 : Ostream) b1 b2 context w1 :
  @Compute Q1 O1 b1 context initial_world = (w1, Ok tt) →
  valid_output (@Compute Q2 O2 b2 context initial_world) = output w1.
Proof.
  intros E.
  destruct (Compute_Ok_inv _ _ _ E)
    as (n & m & programs & nqs & sums & maps & c & Ha & Hp & Hv).
  rewrite (Compute_validated _ _ _ _ _ _ _ _ _ Ha Hp Hv) in E.
  rewrite (@Compute_validated Q2 O2 b2 _ _ _ _ _ _ _ _ Ha Hp Hv).
  destruct (agree_ComputeLarge Q1 Q2 O1 O2 b1 b2 nqs (qsim_circuits c) sums
              (allocated context n m validated_lines)
              (allocated context n m validated_lines) eq_refl) as [Ho Hr].
  rewrite E in Ho, Hr. simpl in Ho, Hr.
  destruct (@ComputeLarge Q2 O2 b2 nqs (qsim_circuits c) sums _) as [w2 [[]| |]];
    by simpl in *.
Qed.

(** X9: the output does not depend on the simulator.  Two calls on the
    same context give the same valid output whatever the bond dimensions
    they were constructed with, and whatever the MPS simulator does with
    the gates: the state it computes is never read. *)
Theorem output_independent_of_simulator (Q1 Q2 : Qsim) (O1 O2 : Ostream)
    b1 b2 context :
  valid_output (@Compute Q1 O1 b1 context initial_world)
  = valid_output (@Compute Q2 O2 b2 context initial_world).
Proof.
  destruct (@Compute Q1 O1 b1 context initial_world) as [w1 [[]| |]] eqn:E1.
  - by rewrite (Compute_Ok_any_simulator Q1 Q2 O1 O2 b1 b2 context w1 E1).
  - destruct (@Compute Q2 O2 b2 context initial_world) as [w2 [[]| |]] eqn:E2;
      [|done..].
    pose proof (Compute_Ok_any_simulator Q2 Q1 O2 O1 b2 b1 context w2 E2) as H.
    by rewrite E1 in H.
  - destruct (@Compute Q2 O2 b2 context initial_world) as [w2 [[]| |]] eqn:E2;
      [|done..].
    pose proof (Compute_Ok_any_simulator Q2 Q1 O2 O1 b2 b1 context w2 E2) as H.
    by rewrite E1 in H.
Qed.

(** * Where the kernel departs from what it announces *)

Lemma to_int_range z : fits_int (to_int z).
Proof.
  unfold fits_int, to_int.
  pose proof (Z.mod_pos_bound (z + 2 ^ 31) (2 ^ 32)). lia.
Qed.

Lemma Dim_known_shapes context k d z :
  input_dim context k d = Some z → Dim (known_shapes context k) d = KnownDim z.
Proof.
  unfold input_dim, known_shapes, Dim.
  destruct (input_shapes context !! k) as [shape|]; [|done]. simpl.
  intros E. by rewrite list_lookup_fmap, E.
Qed.

Section Departures.
Context {Q : Qsim} {O : Ostream}.
Variable bond_dim_ : Z.

(** A cell of a circuit with gates after a call that ended normally. *)
Lemma unwritten_cell context w' programs nqs sums maps i j program map :
  fair_workers context →
  Compute bond_dim_ context initial_world = (w', Ok tt) →
  parses context programs nqs sums maps →
  programs !! i = Some program → maps !! i = Some map →
  (resolve_program map program).2 ≠ [] →
  ∃ out, output w' = Some out
         ∧ (i < rows out → cell out i j = output_memory context i j).
Proof.
  intros Hfair E Hp Hprog Hmap Hgates.
  destruct (Compute_Ok_cells _ _ _ E)
    as (n & m & ? & ? & ? & ? & c & Ha & Hp' & Hv & Hd & Hr).
  destruct (parses_unique _ _ _ _ _ _ _ _ _ Hp Hp') as (-> & -> & -> & ->).
  unfold dims in Hd. destruct (output w') as [out|] eqn:Hout; [|done].
  injection Hd as Hrows Hcols. exists out. split; [done|]. intros Hi.
  destruct (Hr i j) as [_ Hno]. unfold read in Hno. rewrite Hout in Hno.
  simpl in Hno. enough (Some (cell out i j) = Some (output_memory context i j))
    by congruence.
  apply Hno. intros (circuit & obs & _ & Hc & Hg & _).
  rewrite Nat.sub_0_r, (validated_circuits _ _ _ _ _ _ _ Hfair Hv) in Hc.
  rewrite decide_True in Hc by lia.
  destruct (resolve_item programs maps nqs i) as [r|] eqn:Hres; [|done].
  injection Hc as <-.
  by rewrite (resolve_item_gates _ _ _ _ _ _ _ Hprog Hmap Hres) in Hg.
Qed.

(** C7 (as the code behaves): the output is not a function of the
    programs, symbol values, observables and bond dimension.  Take two
    calls that parse the same programs, symbol maps and observables, with
    any workers, and that both end normally.  For a batch item whose
    circuit has gates no cell is written, so each output shows what its
    buffer held before the call: where the two buffers differ, the two
    outputs differ. *)
Theorem output_differs_with_buffer context1 context2 w1 w2
    programs nqs sums maps i j program map :
  fair_workers context1 → fair_workers context2 →
  parses context1 programs nqs sums maps →
  parses context2 programs nqs sums maps →
  Compute bond_dim_ context1 initial_world = (w1, Ok tt) →
  Compute bond_dim_ context2 initial_world = (w2, Ok tt) →
  programs !! i = Some program → maps !! i = Some map →
  (resolve_program map program).2 ≠ [] →
  output_memory context1 i j ≠ output_memory context2 i j →
  ∃ out1 out2,
    output w1 = Some out1 ∧ output w2 = Some out2
    ∧ (i < rows out1 → i < rows out2 → cell out1 i j ≠ cell out2 i j).
Proof.
  intros Hf1 Hf2 Hp1 Hp2 E1 E2 Hprog Hmap Hgates Hdiff.
  destruct (unwritten_cell context1 w1 programs nqs sums maps i j program map)
    as (out1 & Ho1 & Hc1); [done..|].
  destruct (unwritten_cell context2 w2 programs nqs sums maps i j program map)
    as (out2 & Ho2 & Hc2); [done..|].
  exists out1, out2. split_and!; [done..|].
  intros Hi1 Hi2. by rewrite (Hc1 Hi1), (Hc2 Hi2).
Qed.

(** C8 (as the code behaves): the kernel reads the two dimensions into
    [int]s.  After a call that ends normally, a dimension of the programs
    or of the observables input that does not fit an [int] is not the
    number of rows or of columns of the output, which is the dimension
    wrapped to 32 bits; the shape function of the op announces the
    dimensions themselves. *)
Theorem output_shape_wraps context w' d0 d1 :
  Compute bond_dim_ context initial_world = (w', Ok tt) →
  input_dim context 0 0 = Some d0 → input_dim context 3 1 = Some d1 →
  ∃ out,
    output w' = Some out
    ∧ Z.of_nat (rows out) = to_int d0 ∧ Z.of_nat (cols out) = to_int d1
    ∧ (¬ fits_int d0 → Z.of_nat (rows out) ≠ d0)
    ∧ (¬ fits_int d1 → Z.of_nat (cols out) ≠ d1)
    ∧ (∀ shape, ShapeFn (known_shapes context) = inr shape →
                shape = KnownShape [KnownDim d0; KnownDim d1]).
Proof.
  intros E Hd0 Hd1.
  destruct (Compute_Ok_cells _ _ _ E)
    as (n & m & ? & ? & ? & ? & c & [_ Hrows Hcols _] & _ & _ & Hd & _).
  unfold dims in Hd. destruct (output w') as [out|]; [|done].
  injection Hd as Hr Hc.
  rewrite Hd0 in Hrows. rewrite Hd1 in Hcols.
  injection Hrows as Hn. injection Hcols as Hm.
  exists out. rewrite Hr, Hc. split_and!; [done..| | |].
  - intros Hfit Heq. apply Hfit. rewrite <- Heq, <- Hn. apply to_int_range.
  - intros Hfit Heq. apply Hfit. rewrite <- Heq, <- Hm. apply to_int_range.
  - intros shape Hshape. apply ShapeFn_output in Hshape.
    by rewrite Hshape, (Dim_known_shapes _ _ _ _ Hd0),
      (Dim_known_shapes _ _ _ _ Hd1).
Qed.

End Departures.

(** * The claims on sample batches *)

Import Recording Samples.

(** ** The model at work *)

Example f32_values :
  f32 (-2) = S754_finite true 8388608 (-22) ∧ f32 1 = S754_finite false 8388608 (-23)
  ∧ f32 0 = S754_zero false ∧ to_int (2 ^ 32 + 7) = 7%Z.
Proof. by vm_compute. Qed.

(** What the kernel prints for the empty program. *)
Example empty_program_trace :
  cout (Compute 2 (empty_context zeros) initial_world).1
  = ["batch_size = 1"; "pauli sums size = 1"; "parse program protos";
     "CheckQubitsIn1D"; "QsimCircuitFromProgram"; "Enter ComputeLarge";
     "ComputeLarge > runs circuit0"; "ComputeLarge > QsimGate size = 0";
     "ComputeLarge > result(0, 0) = -2.0"].
Proof. by vm_compute. Qed.

(** For the program [X on qubit 0] the single cell of the output is the
    one the buffer came with. *)
Example flip_cell memory :
  ∃ w' out,
    Compute 2 (flip_context memory) initial_world = (w', Ok tt)
    ∧ output w' = Some out ∧ rows out = 1 ∧ cols out = 1
    ∧ cell out 0 0 = memory 0 0.
Proof. eexists _, _. split_and!; [by vm_compute|done..]. Qed.

(** The shape function on shapes of the right ranks, and on a programs
    input that is a matrix. *)
Example ShapeFn_samples :
  ShapeFn sample_input = inr (KnownShape [KnownDim 5; KnownDim 7])
  ∧ ShapeFn (λ _, KnownShape [KnownDim 5; KnownDim 7])
    = inl (InvalidArgument "Shape must be rank 1 but is rank 2")
  ∧ ShapeFn (λ _, UnknownShape) = inr (KnownShape [UnknownDim; UnknownDim]).
Proof. by vm_compute. Qed.

(** ** Witnesses *)

Lemma wrong_number_of_inputs_witness :
  Compute 2 three_inputs initial_world
  = (initial_world,
     Failed (InvalidArgument "Expected 4 inputs, got 3 inputs.")).
Proof. apply (wrong_number_of_inputs 2 three_inputs). by vm_compute. Defined.

Lemma batch_size_mismatch_witness :
  Compute 2 mismatch_context initial_world
  = (allocated mismatch_context 2 1 ["parse program protos"],
     Failed (InvalidArgument
               "Number of circuits and symbol_values do not match. Got 2 circuits and 1 symbol values."))
  ∧ valid_output (Compute 2 mismatch_context initial_world) = None.
Proof.
  apply (batch_size_mismatch 2 mismatch_context 2 1
           [[X_on_0]; []] [1; 1]%Z [[Z_on_0]; [Z_on_0]] [∅]).
  - by split.
  - by split.
  - simpl. lia.
Defined.

Lemma non_adjacent_gate_aborts_witness :
  ∃ i, i ≤ 1
    ∧ Compute 2 far_gate_context initial_world
      = (allocated far_gate_context 2 1 ["parse program protos"],
         Failed (TopologyError i))
    ∧ valid_output (Compute 2 far_gate_context initial_world) = None.
Proof.
  apply (non_adjacent_gate_aborts 2 far_gate_context 2 1
           [[X_on_0]; [X_on_0; CZ_on_0_2]] [1; 3]%Z [[Z_on_0]; [Z_on_0]] [∅; ∅]
           1 [X_on_0; CZ_on_0_2] CZ_on_0_2 0 2).
  - by split.
  - by split.
  - reflexivity.
  - reflexivity.
  - apply elem_of_cons. right. apply elem_of_cons. by left.
  - reflexivity.
  - lia.
  - lia.
Defined.

Lemma backwards_fair n : backwards n ≡ₚ seq 0 n.
Proof. apply reverse_Permutation. Qed.

Lemma resolution_error_aborts_witness :
  let observed :=
    observed_statuses [[scaled "alpha"]; [scaled "beta"]] [∅; ∅] [1; 1]%Z
      (workers unresolved_context 2) in
  (Compute 2 unresolved_context initial_world
   = (allocated unresolved_context 2 1 ["parse program protos"; "CheckQubitsIn1D"],
      Failed (first_error observed))
   ∧ ok (first_error observed) = false
   ∧ valid_output (Compute 2 unresolved_context initial_world) = None)
  ∧ first_error observed = UnresolvedSymbolError "beta".
Proof.
  split; [|by vm_compute].
  apply (resolution_error_aborts 2 unresolved_context 2 1
           [[scaled "alpha"]; [scaled "beta"]] [1; 1]%Z [[Z_on_0]; [Z_on_0]] [∅; ∅]).
  - by split.
  - by split.
  - reflexivity.
  - reflexivity.
  - exact backwards_fair.
  - reflexivity.
  - reflexivity.
  - vm_compute. apply Exists_cons_hd. reflexivity.
Defined.

Lemma dispatch_is_ComputeLarge_witness :
  let c := {| parse_status := OK;
              qsim_circuits :=
                [{| num_qubits := 1;
                    gates := [{| qubits := [0%nat]; matrix := X_matrix |}] |}] |} in
  Compute 2 (flip_context zeros) initial_world
  = ComputeLarge 2 [1%Z] (qsim_circuits c) [[Z_on_0]]
      (allocated (flip_context zeros) 1 1 validated_lines)
  ∧ "Enter ComputeLarge" ∈ cout (Compute 2 (flip_context zeros) initial_world).1
  ∧ "THIS SHOULD NOT BE PRINTED OUT"
      ∉ cout (Compute 2 (flip_context zeros) initial_world).1.
Proof.
  apply (dispatch_is_ComputeLarge 2 (flip_context zeros) 1 1
           [[X_on_0]] [1%Z] [[Z_on_0]] [∅]).
  - by split.
  - by split.
  - by split.
Defined.

Lemma in_order_fair context : workers context = seq 0 → fair_workers context.
Proof. intros E n. by rewrite E. Qed.

Lemma expectation_is_not_written_witness :
  (∃ out, output (Compute 2 (flip_context zeros) initial_world).1 = Some out
          ∧ (0 < rows out → cell out 0 0 = zeros 0 0))
  ∧ zeros 0 0 ≠ f32 (-1).
Proof.
  split; [|by vm_compute].
  apply (expectation_is_not_written 2 (flip_context zeros) _
           [[X_on_0]] [1%Z] [[Z_on_0]] [∅] 0 0 [X_on_0] ∅).
  - by apply in_order_fair.
  - by vm_compute.
  - by split.
  - reflexivity.
  - reflexivity.
  - by vm_compute.
Defined.

Lemma empty_circuit_gets_sentinel_witness :
  ∃ out, output (Compute 2 (empty_context zeros) initial_world).1 = Some out
         ∧ cell out 0 0 = f32 (-2).
Proof.
  apply (empty_circuit_gets_sentinel 2 (empty_context zeros) _
           [[]] [1%Z] [[Z_on_0]] [∅] 0 0 [] ∅ [Z_on_0]).
  - by apply in_order_fair.
  - by vm_compute.
  - by split.
  - reflexivity.
  - reflexivity.
  - reflexivity.
  - reflexivity.
  - simpl. lia.
Defined.

(** C2 as the specification words it fails: for the empty program the
    cell of observable Z on qubit 0 is -2.0, not +1.0, and the cell of
    observable X on qubit 0 is -2.0, not 0.0. *)
Lemma empty_program_expectation_is_sentinel :
  (∃ w' out, Compute 2 (empty_context zeros) initial_world = (w', Ok tt)
             ∧ output w' = Some out
             ∧ cell out 0 0 = f32 (-2) ∧ cell out 0 0 ≠ f32 1)
  ∧ (∃ w' out, Compute 2 (empty_X_context zeros) initial_world = (w', Ok tt)
               ∧ output w' = Some out
               ∧ cell out 0 0 = f32 (-2) ∧ cell out 0 0 ≠ f32 0).
Proof.
  split.
  - eexists _, _. split_and!; [by vm_compute|reflexivity|by vm_compute|].
    by vm_compute.
  - eexists _, _. split_and!; [by vm_compute|reflexivity|by vm_compute|].
    by vm_compute.
Qed.

Lemma output_shape_witness :
  (∃ out d0 d1,
     output (Compute 2 (mixed_context) initial_world).1 = Some out
     ∧ input_dim mixed_context 0 0 = Some d0
     ∧ input_dim mixed_context 3 1 = Some d1
     ∧ Z.of_nat (rows out) = to_int d0 ∧ Z.of_nat (cols out) = to_int d1
     ∧ (fits_int d0 → Z.of_nat (rows out) = d0)
     ∧ (fits_int d1 → Z.of_nat (cols out) = d1))
  ∧ KnownShape [KnownDim 5; KnownDim 7]
    = KnownShape [Dim (sample_input 0) 0; Dim (sample_input 3) 1].
Proof.
  destruct (output_shape 2) as [Hkernel Hshape]. split.
  - apply (Hkernel mixed_context). by vm_compute.
  - apply (Hshape sample_input). reflexivity.
Defined.

Lemma workers_do_not_matter_witness :
  valid_output (Compute 2 (with_workers (seq 0) mixed_context) initial_world)
  = valid_output (Compute 2 (with_workers backwards mixed_context) initial_world).
Proof.
  apply (workers_do_not_matter 2 mixed_context (seq 0) backwards).
  - intros n. reflexivity.
  - exact backwards_fair.
Defined.

Lemma state_grows_monotonically_witness :
  ∃ wk st wk1 nq,
    let st1 := after_circuit 2 nq {| num_qubits := 2; gates := [] |} st in
    three_sizes !! 2 = Some nq
    ∧ ComputeLarge_from 2 0 three_sizes (take 2 three_circuits) three_sums
        (ComputeLarge_begin 2) three_rows = (wk, Ok st)
    ∧ ComputeLarge_from 2 0 three_sizes (take 3 three_circuits) three_sums
        (ComputeLarge_begin 2) three_rows = (wk1, Ok st1)
    ∧ sized st ∧ sized st1
    ∧ (NumQubits (sv st) ≤ NumQubits (sv st1))%Z
    ∧ (largest_nq st ≤ largest_nq st1)%Z
    ∧ largest_nq st1 = Z.max (largest_nq st) nq
    ∧ ((nq > largest_nq st)%Z →
         scratch st1 = Create nq 2
         ∧ sv st1 = apply_gates [] (SetStateZero (Create nq 2)))
    ∧ ((nq ≤ largest_nq st)%Z →
         scratch st1 = scratch st
         ∧ sv st1 = apply_gates [] (SetStateZero (sv st))).
Proof.
  apply (state_grows_monotonically 2 three_sizes three_circuits three_sums
           three_rows
           (ComputeLarge_from 2 0 three_sizes three_circuits three_sums
              (ComputeLarge_begin 2) three_rows).1
           {| largest_nq := 3; sv := Create 3 2; scratch := Create 3 2 |}
           2 {| num_qubits := 2; gates := [] |}).
  - by vm_compute.
  - reflexivity.
Defined.

(** ** Witnesses of the further properties *)

Lemma allocation_failure_witness :
  Compute 2 failing_allocation initial_world
  = (unallocated 2 1, Failed (InvalidArgument "no memory for the output")).
Proof. by apply (allocation_failure 2 failing_allocation 2 1). Defined.

Lemma programs_parse_failure_witness :
  Compute 2 unparsed_programs initial_world
  = (allocated unparsed_programs 2 1 [], Failed (InvalidArgument "Unparseable proto"))
  ∧ valid_output (Compute 2 unparsed_programs initial_world) = None.
Proof.
  apply (programs_parse_failure 2 unparsed_programs 2 1
           (InvalidArgument "Unparseable proto") ([], [], [])).
  - by split.
  - reflexivity.
  - reflexivity.
Defined.

Lemma symbol_maps_failure_witness :
  Compute 2 unparsed_symbols initial_world
  = (allocated unparsed_symbols 2 1 ["parse program protos"],
     Failed (InvalidArgument "Input symbol names must be unique"))
  ∧ valid_output (Compute 2 unparsed_symbols initial_world) = None.
Proof.
  apply (symbol_maps_failure 2 unparsed_symbols 2 1
           ([[X_on_0]; []], [1; 1]%Z, [[Z_on_0]; [Z_on_0]])
           (InvalidArgument "Input symbol names must be unique") []).
  - by split.
  - reflexivity.
  - reflexivity.
  - reflexivity.
Defined.

Lemma every_failure_precedes_simulation_witness :
  ("Enter ComputeLarge" ∉ cout (Compute 2 mismatch_context initial_world).1)
  ∧ ok (InvalidArgument
          "Number of circuits and symbol_values do not match. Got 2 circuits and 1 symbol values.")
    = false
  ∧ valid_output (Compute 2 mismatch_context initial_world) = None.
Proof.
  apply (every_failure_precedes_simulation 2 mismatch_context). by vm_compute.
Defined.


Lemma final_state_size_witness :
  largest_nq {| largest_nq := 3; sv := Create 3 2; scratch := Create 3 2 |} = 3%Z
  ∧ NumQubits (Create 3 2) = 3%Z
  ∧ NumQubits (Create 3 2) = 3%Z.
Proof.
  apply (final_state_size 2 three_sizes three_circuits three_sums three_rows
           (ComputeLarge_from 2 0 three_sizes three_circuits three_sums
              (ComputeLarge_begin 2) three_rows).1
           {| largest_nq := 3; sv := Create 3 2; scratch := Create 3 2 |}).
  - by vm_compute.
  - reflexivity.
Defined.

Lemma well_formed_call_succeeds_witness :
  ∃ w', Compute 2 mixed_context initial_world = (w', Ok tt).
Proof.
  apply (well_formed_call_succeeds 2 mixed_context 2 1
           [[X_on_0]; []] [1; 1]%Z [[Z_on_0]; [Z_on_0]] [∅; ∅]).
  - by split.
  - by split.
  - by apply in_order_fair.
  - reflexivity.
  - reflexivity.
  - reflexivity.
  - reflexivity.
  - reflexivity.
  - intros [|[|i]] p mp nq Hp Hm Hq; simpl in *;
      [injection Hp as <-; reflexivity..|done].
  - repeat constructor.
Defined.

Lemma resolution_fills_slots_witness :
  ∃ c,
    run_iterations (construct_f [[X_on_0]; []] [∅; ∅] [1; 1]%Z) (backwards 2)
      (construct_begin 2) = Some c
    ∧ length (qsim_circuits c) = 2
    ∧ (∀ i, i < 2 →
         ∃ p mp nq,
           [[X_on_0]; []] !! i = Some p ∧ [∅; ∅] !! i = Some mp
           ∧ [1; 1]%Z !! i = Some nq
           ∧ qsim_circuits c !! i = Some (QsimCircuitFromProgram p mp nq).2)
    ∧ (∀ i, 2 ≤ i < 2 →
         qsim_circuits c !! i = Some {| num_qubits := 0; gates := [] |}).
Proof.
  apply (resolution_fills_slots [[X_on_0]; []] [∅; ∅] [1; 1]%Z (backwards 2) 2).
  - apply backwards_fair.
  - simpl. lia.
  - simpl. lia.
  - simpl. lia.
Defined.

Lemma empty_batch_witness :
  Compute 2 no_programs initial_world
  = (allocated no_programs 0 1 validated_lines, Ok tt).
Proof.
  apply (empty_batch 2 no_programs 1 [] []).
  - by split.
  - by split.
  - reflexivity.
Defined.

Lemma normal_end_passed_every_check_witness :
  ∃ n m,
    allocates mixed_context n m
    ∧ dims (Compute 2 mixed_context initial_world).1 = Some (n, m)
    ∧ length [[X_on_0]; []] = length [(∅ : SymbolMap); ∅]
    ∧ CheckQubitsIn1D [[X_on_0]; []] = OK
    ∧ ∀ i, i < n →
        ∃ p mp nq,
          [[X_on_0]; []] !! i = Some p ∧ [(∅ : SymbolMap); ∅] !! i = Some mp
          ∧ [1; 1]%Z !! i = Some nq
          ∧ (QsimCircuitFromProgram p mp nq).1 = OK.
Proof.
  apply (normal_end_passed_every_check 2 mixed_context _
           [[X_on_0]; []] [1; 1]%Z [[Z_on_0]; [Z_on_0]] [∅; ∅]).
  - by apply in_order_fair.
  - by vm_compute.
  - by split.
Defined.

(** ** The departures on sample batches *)

Lemma output_differs_with_buffer_witness :
  ∃ out1 out2,
    output (Compute 2 (mixed_batch zeros) initial_world).1 = Some out1
    ∧ output (Compute 2 (with_workers backwards (mixed_batch ones))
                initial_world).1 = Some out2
    ∧ (0 < rows out1 → 0 < rows out2 → cell out1 0 0 ≠ cell out2 0 0).
Proof.
  apply (output_differs_with_buffer 2
           (mixed_batch zeros) (with_workers backwards (mixed_batch ones)) _ _
           [[X_on_0]; []] [1; 1]%Z [[Z_on_0]; [Z_on_0]] [∅; ∅] 0 0 [X_on_0] ∅).
  - by apply in_order_fair.
  - intros n. apply backwards_fair.
  - by split.
  - by split.
  - by vm_compute.
  - by vm_compute.
  - reflexivity.
  - reflexivity.
  - by vm_compute.
  - by vm_compute.
Defined.

Lemma output_shape_wraps_witness :
  ∃ out,
    output (Compute 2 wide_observables initial_world).1 = Some out
    ∧ Z.of_nat (rows out) = to_int 0 ∧ Z.of_nat (cols out) = to_int (2 ^ 32 + 7)
    ∧ (¬ fits_int 0 → Z.of_nat (rows out) ≠ 0%Z)
    ∧ (¬ fits_int (2 ^ 32 + 7) → Z.of_nat (cols out) ≠ (2 ^ 32 + 7)%Z)
    ∧ (∀ shape, ShapeFn (known_shapes wide_observables) = inr shape →
                shape = KnownShape [KnownDim 0; KnownDim (2 ^ 32 + 7)]).
Proof.
  apply (output_shape_wraps 2 wide_observables).
  - by vm_compute.
  - reflexivity.
  - reflexivity.
Defined.

(** On that batch the call ends normally with seven columns, the shape
    function announces [2^32 + 7]. *)
Example wide_observables_shapes :
  (∃ w' out, Compute 2 wide_observables initial_world = (w', Ok tt)
             ∧ output w' = Some out ∧ rows out = 0 ∧ cols out = 7)
  ∧ ShapeFn (known_shapes wide_observables)
    = inr (KnownShape [KnownDim 0; KnownDim (2 ^ 32 + 7)])
  ∧ ¬ fits_int (2 ^ 32 + 7).
Proof.
  split_and!.
  - eexists _, _. split_and!; [by vm_compute|done..].
  - by vm_compute.
  - unfold fits_int. lia.
Qed.

(** On the mixed batch, the cell of the circuit with gates is 0.0 from a
    buffer of zeros and 1.0 from a buffer of ones. *)
Example mixed_batch_cells :
  (cell <$> valid_output (Compute 2 (mixed_batch zeros) initial_world))
    ≫= (λ c, Some (c 0 0, c 1 0)) = Some (f32 0, f32 (-2))
  ∧ (cell <$> valid_output (Compute 2 (with_workers backwards (mixed_batch ones))
                              initial_world))
      ≫= (λ c, Some (c 0 0, c 1 0)) = Some (f32 1, f32 (-2)).
Proof. split; by vm_compute. Qed.
